(** * GN address-set checking tools: a shallow embedding

    The development follows the three Python scripts of the repository:

    - [1.提取加合并.py]   stanza extraction and wildcard-to-CIDR rewriting,
    - [2.文本表格比较.py] register/inventory loading and the one-bucket diff,
    - [gn_check_all.py]   the combined tool with the two-bucket diff.

    Python [str] values are modelled as [string]; a character is a code
    point below 256.  Dictionaries are [gmap string _], Python sets are
    [gset string] (iteration order is whatever [elements] yields, which is
    as unspecified as Python's), exceptions are an explicit [result]. *)

From Stdlib Require Import ZArith Ascii String List Lia Bool.
From Stdlib Require Import Numbers.DecimalString.
From stdpp Require Import base option list sorting gmap strings.

Open Scope string_scope.
Open Scope Z_scope.

(** ** Exceptions *)

Inductive exn : Type :=
| ValueError.

Inductive result (A : Type) : Type :=
| Ok (a : A)
| Raise (e : exn).
Arguments Ok {A} a.
Arguments Raise {A} e.

(** Sequencing: an exception raised by the first computation propagates. *)
#[global] Instance result_ret : MRet result := λ A a, Ok a.
#[global] Instance result_bind : MBind result := λ A B k r,
  match r with
  | Ok a => k a
  | Raise e => Raise e
  end.

(** A list comprehension [[f(x) for x in l]] whose body may raise: the
    first failing element aborts the whole comprehension. *)
Fixpoint comprehension {A B} (f : A → result B) (l : list A) : result (list B) :=
  match l with
  | [] => Ok []
  | x :: l' => y ← f x; ys ← comprehension f l'; Ok (y :: ys)
  end.

(** ** Python string primitives *)

Module Py.

Definition code (c : ascii) : N := N_of_ascii c.

(** [str.isspace] on one character, for code points below 256: TAB, LF,
    VT, FF, CR, the four separators 0x1c-0x1f, SPACE, NEL and NBSP.  The
    same predicate is what [\s] means in a [str] pattern. *)
Definition isspace (c : ascii) : bool :=
  let n := code c in
  ((9 <=? n) && (n <=? 13) || (28 <=? n) && (n <=? 32)
   || (n =? 133) || (n =? 160))%N.

(** [\d] in a [str] pattern, for code points below 256. *)
Definition isdigit (c : ascii) : bool :=
  let n := code c in ((48 <=? n) && (n <=? 57))%N.

Definition digit_value (c : ascii) : Z := Z.of_N (code c) - 48.

Definition is_empty (s : string) : bool :=
  match s with
  | EmptyString => true
  | String _ _ => false
  end.

(** [s.lstrip(chars)] and [s.rstrip(chars)], the character set being given
    as a predicate. *)
Fixpoint lstrip_by (p : ascii → bool) (s : string) : string :=
  match s with
  | EmptyString => EmptyString
  | String c s' => if p c then lstrip_by p s' else s
  end.

Fixpoint rstrip_by (p : ascii → bool) (s : string) : string :=
  match s with
  | EmptyString => EmptyString
  | String c s' =>
      let r := rstrip_by p s' in
      if p c && is_empty r then EmptyString else String c r
  end.

(** [s.strip()] *)
Definition strip (s : string) : string :=
  lstrip_by isspace (rstrip_by isspace s).

(** [s.startswith(t)] *)
Fixpoint startswith (s t : string) : bool :=
  match t, s with
  | EmptyString, _ => true
  | String b t', String a s' => Ascii.eqb a b && startswith s' t'
  | String _ _, EmptyString => false
  end.

(** [s.split(sep)] for a one-character separator: always at least one
    piece, empty pieces are kept. *)
Fixpoint split (sep : ascii) (s : string) : list string :=
  match s with
  | EmptyString => [EmptyString]
  | String c s' =>
      if Ascii.eqb c sep then EmptyString :: split sep s'
      else match split sep s' with
           | h :: t => String c h :: t
           | [] => [String c EmptyString]
           end
  end.

(** The whitespace [int] accepts around a literal.  It is not that of
    [str.strip]: [int] skips what C's [isspace] accepts (TAB to CR and
    SPACE), and NEL and NBSP, which it first turns into a space; the four
    separators 0x1c-0x1f are left in place and make the literal invalid. *)
Definition int_space (c : ascii) : bool :=
  let n := code c in
  ((9 <=? n) && (n <=? 13) || (n =? 32) || (n =? 133) || (n =? 160))%N.

(** The digits of a literal, in which single underscores may separate
    digits. *)
Fixpoint int_digits (s : string) (acc : Z) (after_digit : bool) : result Z :=
  match s with
  | EmptyString => if after_digit then Ok acc else Raise ValueError
  | String c s' =>
      if isdigit c then int_digits s' (10 * acc + digit_value c) true
      else if Ascii.eqb c "_" && after_digit then int_digits s' acc false
      else Raise ValueError
  end.

(** [sys.int_info.default_max_str_digits]: a literal with more digits
    (underscores not counted) is refused with [ValueError]. *)
Definition max_str_digits : Z := 4300.

Fixpoint digit_count (s : string) : Z :=
  match s with
  | EmptyString => 0
  | String c s' => (if isdigit c then 1 else 0) + digit_count s'
  end.

Definition int_literal (t : string) : result Z :=
  if max_str_digits <? digit_count t then Raise ValueError
  else int_digits t 0 false.

(** [int(s)]: surrounding whitespace is dropped, one optional sign, then
    the digits.  Anything else raises [ValueError]. *)
Definition int (s : string) : result Z :=
  match lstrip_by int_space (rstrip_by int_space s) with
  | String "+" r => int_literal r
  | String "-" r => n ← int_literal r; Ok (- n)
  | t => int_literal t
  end.

(** [bin(n)] *)
Fixpoint bin_pos (p : positive) : string :=
  match p with
  | xH => "1"
  | xO p' => bin_pos p' ++ "0"
  | xI p' => bin_pos p' ++ "1"
  end.

Definition bin (n : Z) : string :=
  match n with
  | Z0 => "0b0"
  | Zpos p => "0b" ++ bin_pos p
  | Zneg p => "-0b" ++ bin_pos p
  end.

(** [s.count(c)] for a one-character needle. *)
Fixpoint count (c : ascii) (s : string) : Z :=
  match s with
  | EmptyString => 0
  | String a s' => (if Ascii.eqb a c then 1 else 0) + count c s'
  end.

(** [str(n)] for an integer, as used by an f-string field. *)
Definition str_int (n : Z) : string := NilZero.string_of_int (Z.to_int n).

(** [sep.join(l)] for the empty separator. *)
Definition join (l : list string) : string := fold_right append EmptyString l.

(** [sum(l)] *)
Definition sum (l : list Z) : Z := fold_left Z.add l 0.

End Py.

(** ** [1.提取加合并.py]: the mask converter *)

(** [(parts + ["0"] * 4)[:4]] *)
Definition pad4 (parts : list string) : list string :=
  firstn 4 (parts ++ repeat "0" 4).

(** [wildcard_to_prefixlen] up to and including [octets = ...]. *)
Definition wildcard_octets (wc : string) : result (list Z) :=
  let wc := Py.strip wc in
  if String.eqb wc "0" then Ok [0; 0; 0; 0]
  else
    let parts := Py.split "." wc in
    let parts := pad4 parts in
    comprehension Py.int parts.

(** ... and from [mask_octets = ...] on. *)
Definition wildcard_to_prefixlen (wc : string) : result Z :=
  octets ← wildcard_octets wc;
  let mask_octets := map (fun o => 255 - o) octets in
  let prefix_len := Py.sum (map (fun o => Py.count "1" (Py.bin o)) mask_octets) in
  Ok prefix_len.

(** ** Regular expressions

    The fragment of [re] that [LINE_PATTERN] is written in: anchors,
    literals, character classes, greedy [*] and [+] over a class,
    concatenation and named groups.  Matching is the backtracking search
    of [re.match], in continuation-passing style; the first complete match
    found is the one Python reports. *)

Module Re.

Inductive regex : Type :=
| Eps
| Bol                                  (* ^ *)
| Eol                                  (* $ *)
| Class (p : ascii → bool)             (* \s, \d, \S, . *)
| Lit (t : string)
| Star (p : ascii → bool)              (* c* , greedy *)
| Plus (p : ascii → bool)              (* c+ , greedy *)
| Seq (r1 r2 : regex)
| Group (name : string) (r : regex).   (* (?P<name>r) *)

Definition cat (rs : list regex) : regex := fold_right Seq Eps rs.

Definition LF : ascii := ascii_of_N 10.

Definition space : ascii → bool := Py.isspace.
Definition nonspace (c : ascii) : bool := negb (Py.isspace c).
Definition digit : ascii → bool := Py.isdigit.
Definition dot (c : ascii) : bool := negb (Ascii.eqb c LF).

(** The captured text of every group that took part in the match. *)
Definition groups : Type := list (string * string).

Fixpoint drop_prefix (t s : string) : option string :=
  match t, s with
  | EmptyString, _ => Some s
  | String b t', String a s' => if Ascii.eqb a b then drop_prefix t' s' else None
  | String _ _, EmptyString => None
  end.

(** [$] without MULTILINE: the end of the subject, or just before a line
    feed that ends the subject. *)
Definition at_end (s : string) : bool :=
  match s with
  | EmptyString => true
  | String c EmptyString => Ascii.eqb c LF
  | _ => false
  end.

Section Matcher.
Context {A : Type}.

(** Greedy repetition: take one more character when possible, give it
    back when the rest of the pattern then fails. *)
Fixpoint star (p : ascii → bool) (s : string) (pos : nat)
    (k : string → nat → option A) : option A :=
  match s with
  | String c s' =>
      if p c then
        match star p s' (S pos) k with
        | Some m => Some m
        | None => k s pos
        end
      else k s pos
  | EmptyString => k s pos
  end.

Fixpoint exec (r : regex) (s : string) (pos : nat) (g : groups)
    (k : string → nat → groups → option A) : option A :=
  match r with
  | Eps => k s pos g
  | Bol => match pos with O => k s pos g | S _ => None end
  | Eol => if at_end s then k s pos g else None
  | Class p =>
      match s with
      | String c s' => if p c then k s' (S pos) g else None
      | EmptyString => None
      end
  | Lit t =>
      match drop_prefix t s with
      | Some s' => k s' (pos + String.length t)%nat g
      | None => None
      end
  | Star p => star p s pos (fun s' pos' => k s' pos' g)
  | Plus p =>
      match s with
      | String c s' =>
          if p c then star p s' (S pos) (fun s' pos' => k s' pos' g) else None
      | EmptyString => None
      end
  | Seq r1 r2 => exec r1 s pos g (fun s' pos' g' => exec r2 s' pos' g' k)
  | Group name r =>
      exec r s pos g
        (fun s' pos' g' => k s' pos' ((name, substring 0 (pos' - pos) s) :: g'))
  end.

End Matcher.

(** [pattern.match(s)] *)
Definition match_ (r : regex) (s : string) : option groups :=
  exec r s 0 [] (fun _ _ g => Some g).

(** [m.group(name)] *)
Fixpoint group (m : groups) (name : string) : string :=
  match m with
  | [] => EmptyString
  | (n, v) :: m' => if String.eqb n name then v else group m' name
  end.

End Re.

(** ** [1.提取加合并.py]: the line rewriter *)

Definition nl : string := String Re.LF EmptyString.

Definition LINE_PATTERN : Re.regex :=
  Re.cat
    [ Re.Bol;
      Re.Group "prefix"
        (Re.cat [Re.Star Re.space; Re.Lit "address"; Re.Plus Re.space;
                 Re.Plus Re.digit; Re.Plus Re.space]);
      Re.Group "ip"
        (Re.cat [Re.Plus Re.digit; Re.Lit "."; Re.Plus Re.digit; Re.Lit ".";
                 Re.Plus Re.digit; Re.Lit "."; Re.Plus Re.digit]);
      Re.Plus Re.space;
      Re.Lit "wildcard"; Re.Plus Re.space;
      Re.Group "wc" (Re.Plus Re.nonspace);
      Re.Group "suffix" (Re.Star Re.dot);
      Re.Eol ].

Definition convert_line (line : string) : result string :=
  match Re.match_ LINE_PATTERN (Py.rstrip_by (Ascii.eqb Re.LF) line) with
  | None => Ok line
  | Some m =>
      let prefix := Re.group m "prefix" in
      let ip := Re.group m "ip" in
      let wc := Re.group m "wc" in
      let suffix := Re.group m "suffix" in
      prefix_len ← wildcard_to_prefixlen wc;
      let new_line := prefix ++ ip ++ "/" ++ Py.str_int prefix_len ++ suffix ++ nl in
      Ok new_line
  end.

(** ** [1.提取加合并.py]: the block scanner *)

Record scanner : Type := Scanner {
  blocks : list string;
  current_block : list string;
  in_block : bool
}.

Definition nonempty {A} (l : list A) : bool :=
  match l with
  | [] => false
  | _ :: _ => true
  end.

Definition start_token : string := "ip address-set internationalgn".

(** Flush the pending buffer into [blocks] when it is a live, non-empty one. *)
Definition flush (st : scanner) : scanner :=
  if in_block st && nonempty (current_block st) then
    Scanner (blocks st ++ [Py.join (current_block st)])%list [] (in_block st)
  else st.

(** One iteration of [for line in f]. *)
Definition scan_line (st : scanner) (line : string) : scanner :=
  let stripped := Py.strip line in
  if Py.startswith stripped start_token then
    let st := flush st in
    Scanner (blocks st) (current_block st ++ [line])%list true
  else if in_block st then
    let cur := (current_block st ++ [line])%list in
    if String.eqb stripped "#" then Scanner (blocks st ++ [Py.join cur])%list [] false
    else Scanner (blocks st) cur true
  else st.

Definition scan (lines : list string) : scanner :=
  fold_left scan_line lines (Scanner [] [] false).

(** The file is given as the list of its lines, as [for line in f] yields
    them. *)
Definition extract_blocks_from_file (lines : list string) : list string :=
  blocks (flush (scan lines)).

(** ** [2.文本表格比较.py] and [gn_check_all.py]: shared helpers

    [normalize_net] and [load_excel_gn_map] are defined twice in the
    repository, with the same body in both files. *)

(** [re.sub] of the pattern [\s+] by the empty string: every run of
    whitespace is dropped. *)
Fixpoint sub_spaces (s : string) : string :=
  match s with
  | EmptyString => EmptyString
  | String c s' => if Py.isspace c then sub_spaces s' else String c (sub_spaces s')
  end.

Definition normalize_net (net : option string) : string :=
  match net with
  | None => EmptyString
  | Some net => sub_spaces net
  end.

(** [sorted] on a list of [str]: code-point lexicographic order, which is
    [String.le]. *)
Definition sorted (l : list string) : list string := merge_sort String.le l.

(** A spreadsheet cell read with [dtype=str]: a string, or NaN when the
    cell is empty. *)
Abbreviation cell := (option string).

(** [pd.isna] *)
Definition isna (c : cell) : bool :=
  match c with
  | None => true
  | Some _ => false
  end.

(** [str(c)]: the string itself, and ["nan"] for NaN. *)
Definition str_cell (c : cell) : string :=
  match c with
  | Some s => s
  | None => "nan"
  end.

(** [Series.ffill]: a NaN takes the last value seen above it, and stays
    NaN when there is none. *)
Fixpoint ffill_from (last : cell) (col : list cell) : list cell :=
  match col with
  | [] => []
  | c :: col' =>
      let v := match c with Some _ => c | None => last end in
      v :: ffill_from v col'
  end.

Definition ffill (col : list cell) : list cell := ffill_from None col.

(** [str.splitlines]: the line boundaries below code point 256 are LF, VT,
    FF, CR, CR LF, FS, GS, RS and NEL; no empty last line is produced. *)
Definition is_linebreak (c : ascii) : bool :=
  let n := Py.code c in
  ((10 <=? n) && (n <=? 13) || (28 <=? n) && (n <=? 30) || (n =? 133))%N.

Definition CR : ascii := ascii_of_N 13.

Fixpoint splitlines_from (after_cr : bool) (s : string) : list string :=
  match s with
  | EmptyString => []
  | String c s' =>
      if after_cr && Ascii.eqb c Re.LF then splitlines_from false s'
      else if is_linebreak c then EmptyString :: splitlines_from (Ascii.eqb c CR) s'
      else match splitlines_from false s' with
           | h :: t => String c h :: t
           | [] => [String c EmptyString]
           end
  end.

Definition splitlines (s : string) : list string := splitlines_from false s.

(** [m[op].add(net)] on a [defaultdict(set)] *)
Definition add_net (m : gmap string (gset string)) (op net : string)
    : gmap string (gset string) :=
  <[op := (m !!! op) ∪ {[net]}]> m.

(** The body of [for part in str(gn_cell).splitlines()]. *)
Definition load_part (op : string) (excel_map : gmap string (gset string))
    (part : string) : gmap string (gset string) :=
  let raw_net := Py.strip part in
  if Py.is_empty raw_net then excel_map
  else
    let norm_net := normalize_net (Some raw_net) in
    if Py.is_empty norm_net then excel_map
    else add_net excel_map op norm_net.

(** The body of [for op, gn_cell in zip(op_col, gn_col)]. *)
Definition load_row (excel_map : gmap string (gset string))
    (row : cell * cell) : gmap string (gset string) :=
  let '(op, gn_cell) := row in
  if isna gn_cell then excel_map
  else
    let op := Py.strip (str_cell op) in
    if Py.is_empty op then excel_map
    else fold_left (load_part op) (splitlines (str_cell gn_cell)) excel_map.

(** The sheet is given as its rows, each a pair of the carrier cell and the
    net cell. *)
Definition load_excel_gn_map (rows : list (cell * cell))
    : gmap string (gset string) :=
  let op_col := map fst rows in
  let gn_col := map snd rows in
  let op_col := ffill op_col in
  fold_left load_row (zip op_col gn_col) ∅.

(** ** [load_txt_gn_map]

    The loop of the inventory loader.  [search line] stands for
    [pattern.search(line)] and yields the two captured groups; nothing
    proved below depends on which lines the pattern matches. *)

Section LoadTxt.
Variable search : string → option (string * string).

Definition load_line (txt_map : gmap string (gset string)) (line : string)
    : gmap string (gset string) :=
  match search line with
  | None => txt_map
  | Some (g1, g2) =>
      let net := Py.strip g1 in
      let op := Py.strip g2 in
      if negb (Py.is_empty op) && negb (Py.is_empty net)
      then add_net txt_map op net else txt_map
  end.

Definition load_txt_gn_map (lines : list string) : gmap string (gset string) :=
  fold_left load_line lines ∅.

End LoadTxt.

(** The nets of one carrier that the register does not have, in the order
    the set is iterated. *)
Definition collect_diff (excel_nets_norm : gset string) (nets_in_txt : gset string)
    : list string :=
  fold_left
    (fun diff_nets net =>
       if decide (normalize_net (Some net) ∉ excel_nets_norm)
       then (diff_nets ++ [net])%list else diff_nets)
    (elements nets_in_txt) [].

(** ** [2.文本表格比较.py]: the one-bucket diff of [main] *)

Module TableCompare.

Definition diff_step (excel_map : gmap string (gset string))
    (op : string) (nets_in_txt : gset string)
    (diff_result : gmap string (list string)) : gmap string (list string) :=
  let excel_nets_norm := default ∅ (excel_map !! op) in
  let diff_nets := collect_diff excel_nets_norm nets_in_txt in
  if nonempty diff_nets then <[op := sorted diff_nets]> diff_result
  else diff_result.

(** The dictionary [diff_result] that [main] builds from the two loaded
    maps. *)
Definition main (excel_map txt_map : gmap string (gset string))
    : gmap string (list string) :=
  map_fold (diff_step excel_map) ∅ txt_map.

End TableCompare.

(** ** [gn_check_all.py]: the two-bucket diff of [compare_and_output] *)

Record report : Type := Report {
  diff_exist : gmap string (list string);
  diff_not_exist : gmap string (list string)
}.

Definition compare_step (excel_map : gmap string (gset string))
    (op : string) (nets_in_txt : gset string) (r : report) : report :=
  match excel_map !! op with
  | None =>
      Report (diff_exist r) (<[op := sorted (elements nets_in_txt)]> (diff_not_exist r))
  | Some excel_nets =>
      let excel_nets_norm : gset string :=
        set_map (fun n => normalize_net (Some n)) excel_nets in
      let diff_nets := collect_diff excel_nets_norm nets_in_txt in
      if nonempty diff_nets
      then Report (<[op := sorted diff_nets]> (diff_exist r)) (diff_not_exist r)
      else r
  end.

(** The two dictionaries that [compare_and_output] builds from the two
    loaded maps. *)
Definition compare_and_output (excel_map txt_map : gmap string (gset string))
    : report :=
  map_fold (compare_step excel_map) (Report ∅ ∅) txt_map.

(** ** Regular expressions, as [load_txt_gn_map] uses them

    The second pattern of the repository is searched for, not matched at
    the start, and needs word boundaries, bounded and lazy repetition and
    case-insensitive literals.  [Rx] is the backtracking search for that
    fragment; it also threads the character before the current position,
    which [\b] looks at. *)

Module Rx.

Inductive regex : Type :=
| Eps
| WordB                                      (* \b *)
| Lit (t : string)                           (* literal text, IGNORECASE *)
| Rep (p : ascii → bool) (lo hi : nat)       (* c{lo,hi}, greedy *)
| Plus (p : ascii → bool)                    (* c+ , greedy *)
| Lazy (p : ascii → bool)                    (* c*? *)
| Seq (r1 r2 : regex)
| Group (n : nat) (r : regex).               (* the n-th ( ... ) *)

Definition cat (rs : list regex) : regex := fold_right Seq Eps rs.

(** [\w] on a [str], for code points below 256: what [str.isalnum]
    accepts, and the underscore. *)
Definition is_word (c : ascii) : bool :=
  let n := Py.code c in
  ((48 <=? n) && (n <=? 57) || (65 <=? n) && (n <=? 90) || (97 <=? n) && (n <=? 122)
   || (n =? 95) || (n =? 170) || (n =? 178) || (n =? 179) || (n =? 181)
   || (n =? 185) || (n =? 186) || (188 <=? n) && (n <=? 190)
   || (192 <=? n) && (n <=? 214) || (216 <=? n) && (n <=? 246) || (248 <=? n))%N.

Definition word_before (prev : option ascii) : bool :=
  match prev with
  | Some c => is_word c
  | None => false
  end.

Definition word_after (s : string) : bool :=
  match s with
  | String c _ => is_word c
  | EmptyString => false
  end.

(** Case folding of the characters a pattern of ASCII letters can meet. *)
Definition lower (c : ascii) : ascii :=
  let n := Py.code c in
  if ((65 <=? n) && (n <=? 90))%N then ascii_of_N (n + 32) else c.

Fixpoint drop_prefix_ci (t s : string) : option (option ascii * string) :=
  match t, s with
  | String b EmptyString, String a s' =>
      if Ascii.eqb (lower a) (lower b) then Some (Some a, s') else None
  | String b t', String a s' =>
      if Ascii.eqb (lower a) (lower b) then drop_prefix_ci t' s' else None
  | String _ _, EmptyString => None
  | EmptyString, _ => None
  end.

Definition groups : Type := list (nat * string).

Section Matcher.
Context {A : Type}.

(** The continuation gets the character before the new position, the
    rest of the subject, the new offset, and (in [exec]) the groups. *)

(** Exactly [n] characters of the class. *)
Fixpoint exactly (p : ascii → bool) (n : nat) (prev : option ascii) (s : string)
    (pos : nat) (k : option ascii → string → nat → option A) : option A :=
  match n with
  | O => k prev s pos
  | S n' =>
      match s with
      | String c s' => if p c then exactly p n' (Some c) s' (S pos) k else None
      | EmptyString => None
      end
  end.

(** Up to [n] characters of the class, as many as possible first. *)
Fixpoint upto (p : ascii → bool) (n : nat) (prev : option ascii) (s : string)
    (pos : nat) (k : option ascii → string → nat → option A) : option A :=
  match n, s with
  | S n', String c s' =>
      if p c then
        match upto p n' (Some c) s' (S pos) k with
        | Some m => Some m
        | None => k prev s pos
        end
      else k prev s pos
  | _, _ => k prev s pos
  end.

(** As few characters of the class as the rest of the pattern allows. *)
Fixpoint lazy (p : ascii → bool) (prev : option ascii) (s : string)
    (pos : nat) (k : option ascii → string → nat → option A) : option A :=
  match k prev s pos with
  | Some m => Some m
  | None =>
      match s with
      | String c s' => if p c then lazy p (Some c) s' (S pos) k else None
      | EmptyString => None
      end
  end.

Fixpoint exec (r : regex) (prev : option ascii) (s : string) (pos : nat) (g : groups)
    (k : option ascii → string → nat → groups → option A) : option A :=
  match r with
  | Eps => k prev s pos g
  | WordB =>
      if negb (Bool.eqb (word_before prev) (word_after s)) then k prev s pos g else None
  | Lit t =>
      match t with
      | EmptyString => k prev s pos g
      | _ =>
          match drop_prefix_ci t s with
          | Some (prev', s') => k prev' s' (pos + String.length t)%nat g
          | None => None
          end
      end
  | Rep p lo hi =>
      exactly p lo prev s pos
        (fun prev' s' pos' => upto p (hi - lo) prev' s' pos' (fun a b c => k a b c g))
  | Plus p =>
      exactly p 1 prev s pos
        (fun prev' s' pos' =>
           upto p (String.length s') prev' s' pos' (fun a b c => k a b c g))
  | Lazy p => lazy p prev s pos (fun a b c => k a b c g)
  | Seq r1 r2 =>
      exec r1 prev s pos g (fun prev' s' pos' g' => exec r2 prev' s' pos' g' k)
  | Group n r =>
      exec r prev s pos g
        (fun prev' s' pos' g' => k prev' s' pos' ((n, substring 0 (pos' - pos) s) :: g'))
  end.

End Matcher.

(** [pattern.search(s)]: the first offset, from the left, at which the
    pattern matches. *)
Fixpoint search_from (r : regex) (prev : option ascii) (s : string) (pos : nat)
    : option groups :=
  match exec r prev s pos [] (fun _ _ _ g => Some g) with
  | Some m => Some m
  | None =>
      match s with
      | String c s' => search_from r (Some c) s' (S pos)
      | EmptyString => None
      end
  end.

Definition search (r : regex) (s : string) : option groups :=
  search_from r None s 0.

(** [m.group(n)] *)
Fixpoint group (m : groups) (n : nat) : string :=
  match m with
  | [] => EmptyString
  | (i, v) :: m' => if Nat.eqb i n then v else group m' n
  end.

End Rx.

(** The pattern of [load_txt_gn_map]:
    [\b(\d{1,3}(?:\.\d{1,3}){3}/\d{1,2})\b.*?\bdescription\s+(\S+)],
    compiled with [re.IGNORECASE]. *)
Definition TXT_PATTERN : Rx.regex :=
  Rx.cat
    [ Rx.WordB;
      Rx.Group 1
        (Rx.cat [Rx.Rep Re.digit 1 3;
                 Rx.Lit "."; Rx.Rep Re.digit 1 3;
                 Rx.Lit "."; Rx.Rep Re.digit 1 3;
                 Rx.Lit "."; Rx.Rep Re.digit 1 3;
                 Rx.Lit "/"; Rx.Rep Re.digit 1 2]);
      Rx.WordB;
      Rx.Lazy Re.dot;
      Rx.WordB; Rx.Lit "description"; Rx.Plus Re.space;
      Rx.Group 2 (Rx.Plus Re.nonspace) ].

(** [pattern.search(line)], with [m.group(1)] and [m.group(2)]. *)
Definition txt_search (line : string) : option (string * string) :=
  match Rx.search TXT_PATTERN line with
  | Some m => Some (Rx.group m 1, Rx.group m 2)
  | None => None
  end.

(** ** Specification-side notions *)

(** The number of 1-bits among the eight low bits of [n]. *)
Definition bit_count8 (n : Z) : Z :=
  Py.sum (map (fun i => Z.b2z (Z.testbit n i)) [0; 1; 2; 3; 4; 5; 6; 7]).

(** An octet string: [int] accepts it and yields an unsigned byte. *)
Definition parses_to_byte (p : string) : Prop :=
  ∃ n, Py.int p = Ok n ∧ 0 ≤ n ≤ 255.

(** A function applied to the first, or to the last, element of a list:
    what stripping a string does to its dot-separated pieces. *)
Definition on_head {A} (f : A → A) (l : list A) : list A :=
  match l with
  | [] => []
  | x :: l' => f x :: l'
  end.

Fixpoint on_last {A} (f : A → A) (l : list A) : list A :=
  match l with
  | [] => []
  | [x] => [f x]
  | x :: l' => x :: on_last f l'
  end.

(** A live scanner always holds at least the line that opened the stanza. *)
Definition live_buffer (st : scanner) : Prop :=
  in_block st = true → current_block st ≠ [].

(** The scanner [st] run after the blocks [b0] had been emitted. *)
Definition emitted_before (b0 : list string) (st : scanner) : scanner :=
  Scanner (b0 ++ blocks st) (current_block st) (in_block st).

(** The two properties of loaded maps that the reconcilers rely on. *)
Definition normalized_register (excel_map : gmap string (gset string)) : Prop :=
  ∀ op excel_nets n,
    excel_map !! op = Some excel_nets → n ∈ excel_nets → normalize_net (Some n) = n.

Definition no_empty_carrier (txt_map : gmap string (gset string)) : Prop :=
  ∀ op nets, txt_map !! op = Some nets → nets ≠ ∅.

(** The union of the two buckets of a report. *)
Definition merged (r : report) : gmap string (list string) :=
  diff_exist r ∪ diff_not_exist r.

(** The loading loop with the forward fill done on the fly: [last] is the
    carrier that an empty carrier cell inherits. *)
Fixpoint load_rows (last : cell) (rows : list (cell * cell))
    (excel_map : gmap string (gset string)) : gmap string (gset string) :=
  match rows with
  | [] => excel_map
  | (op, gn_cell) :: rows' =>
      let op := match op with Some _ => op | None => last end in
      load_rows op rows' (load_row excel_map (op, gn_cell))
  end.

(** A line that opens a stanza, and a line that closes one. *)
Definition opens (line : string) : bool :=
  Py.startswith (Py.strip line) start_token.

Definition closes (line : string) : bool :=
  String.eqb (Py.strip line) "#".

(** A stanza of [lines]: a run of consecutive lines that begins with an
    opening line and holds no other one, joined into one string. *)
Definition stanza_of (lines : list string) (b : string) : Prop :=
  ∃ pre first rest post,
    lines = (pre ++ first :: rest ++ post)%list ∧
    opens first = true ∧
    Forall (fun l => opens l = false) rest ∧
    b = Py.join (first :: rest).

(** The dotted wildcard mask of a prefix length: the low [32 - n] bits
    set, written as four decimal octets. *)
Definition wildcard_of_prefixlen (n : Z) : string :=
  let w := 2 ^ (32 - n) - 1 in
  (Py.str_int (w / 2 ^ 24 mod 256) ++ "." ++ Py.str_int (w / 2 ^ 16 mod 256) ++ "."
   ++ Py.str_int (w / 2 ^ 8 mod 256) ++ "." ++ Py.str_int (w mod 256))%string.

(** A net listed under a carrier, in either section of the report. *)
Definition reported (r : report) (op net : string) : Prop :=
  ∃ l, (diff_exist r !! op = Some l ∨ diff_not_exist r !! op = Some l) ∧ net ∈ l.

(** A net that the register has for a carrier, up to whitespace. *)
Definition covered (excel_map : gmap string (gset string)) (op net : string) : Prop :=
  ∃ excel_nets n,
    excel_map !! op = Some excel_nets ∧ n ∈ excel_nets ∧
    normalize_net (Some n) = normalize_net (Some net).

(** What one forward-filled row of the sheet files under a carrier. *)
Definition contributes (row : cell * cell) (op n : string) : Prop :=
  ∃ gn part,
    row.2 = Some gn ∧ Py.strip (str_cell row.1) = op ∧ op ≠ EmptyString ∧
    part ∈ splitlines gn ∧ Py.strip part ≠ EmptyString ∧
    n = normalize_net (Some (Py.strip part)).

(** What holds of every entry of a loaded register. *)
Definition clean_register (m : gmap string (gset string)) : Prop :=
  ∀ op nets,
    m !! op = Some nets →
    op ≠ EmptyString ∧ Py.strip op = op ∧ nets ≠ ∅ ∧
    ∀ n, n ∈ nets → n ≠ EmptyString ∧ normalize_net (Some n) = n.

(** Every character of [w] is in the class [p]. *)
Fixpoint all_chars (p : ascii → bool) (w : string) : bool :=
  match w with
  | EmptyString => true
  | String c w' => p c && all_chars p w'
  end.

(** What it means for [r] to match the text [w] at offset [pos], with
    [rest] following it, given the groups [g] captured so far: the
    declarative reading of the patterns that [Re.exec] searches. *)
Fixpoint re_sem (r : Re.regex) (pos : nat) (w rest : string) (g g' : Re.groups) : Prop :=
  match r with
  | Re.Eps => w = EmptyString ∧ g' = g
  | Re.Bol => w = EmptyString ∧ pos = 0%nat ∧ g' = g
  | Re.Eol => w = EmptyString ∧ Re.at_end rest = true ∧ g' = g
  | Re.Class p => (∃ c, w = String c EmptyString ∧ p c = true) ∧ g' = g
  | Re.Lit t => w = t ∧ g' = g
  | Re.Star p => all_chars p w = true ∧ g' = g
  | Re.Plus p => w ≠ EmptyString ∧ all_chars p w = true ∧ g' = g
  | Re.Seq r1 r2 =>
      ∃ w1 w2 g1,
        w = (w1 ++ w2)%string ∧
        re_sem r1 pos w1 (w2 ++ rest)%string g g1 ∧
        re_sem r2 (pos + String.length w1)%nat w2 rest g1 g'
  | Re.Group name r => ∃ g1, re_sem r pos w rest g g1 ∧ g' = (name, w) :: g1
  end.

(** The shapes that [LINE_PATTERN] puts together. *)
Definition blank (x : string) : Prop :=
  x ≠ EmptyString ∧ all_chars Re.space x = true.

Definition number (x : string) : Prop :=
  x ≠ EmptyString ∧ all_chars Re.digit x = true.

Definition token (x : string) : Prop :=
  x ≠ EmptyString ∧ all_chars Re.nonspace x = true.

Definition address_prefix (x : string) : Prop :=
  ∃ ws0 ws1 d ws2,
    x = (ws0 ++ "address" ++ ws1 ++ d ++ ws2)%string ∧
    all_chars Re.space ws0 = true ∧ blank ws1 ∧ number d ∧ blank ws2.

Definition dotted_quad (x : string) : Prop :=
  ∃ d1 d2 d3 d4,
    x = (d1 ++ "." ++ d2 ++ "." ++ d3 ++ "." ++ d4)%string ∧
    number d1 ∧ number d2 ∧ number d3 ∧ number d4.

(** [body] is an address line with the given four captured parts. *)
Definition address_line (body prefix ip wc suffix : string) : Prop :=
  ∃ gap1 gap2,
    body = (prefix ++ ip ++ gap1 ++ "wildcard" ++ gap2 ++ wc ++ suffix)%string ∧
    address_prefix prefix ∧ dotted_quad ip ∧ blank gap1 ∧ blank gap2 ∧
    token wc ∧ all_chars Re.dot suffix = true.

(** [b] does not start with a character of the class [p]. *)
Definition head_not (p : ascii → bool) (b : string) : Prop :=
  match b with
  | EmptyString => True
  | String c _ => p c = false
  end.

(** Equal up to the case of ASCII letters. *)
Fixpoint ci_equal (w t : string) : bool :=
  match w, t with
  | EmptyString, EmptyString => true
  | String a w', String b t' => Ascii.eqb (Rx.lower a) (Rx.lower b) && ci_equal w' t'
  | _, _ => false
  end.

(** What a pattern of [Rx] can match and capture, position and
    neighbouring characters aside: every match found by [Rx.exec] has
    this shape. *)
Fixpoint rx_shape (r : Rx.regex) (w : string) (g g' : Rx.groups) : Prop :=
  match r with
  | Rx.Eps => w = EmptyString ∧ g' = g
  | Rx.WordB => w = EmptyString ∧ g' = g
  | Rx.Lit t => ci_equal w t = true ∧ g' = g
  | Rx.Rep p lo hi =>
      (lo ≤ String.length w ≤ Nat.max lo hi)%nat ∧ all_chars p w = true ∧ g' = g
  | Rx.Plus p => w ≠ EmptyString ∧ all_chars p w = true ∧ g' = g
  | Rx.Lazy p => all_chars p w = true ∧ g' = g
  | Rx.Seq r1 r2 =>
      ∃ w1 w2 g1, w = (w1 ++ w2)%string ∧ rx_shape r1 w1 g g1 ∧ rx_shape r2 w2 g1 g'
  | Rx.Group n r => ∃ g1, rx_shape r w g g1 ∧ g' = (n, w) :: g1
  end.

(** A run of one to [n] decimal digits. *)
Definition digits_upto (n : nat) (x : string) : Prop :=
  (1 ≤ String.length x ≤ n)%nat ∧ all_chars Re.digit x = true.

(** The text [a.b.c.d/p] with one to three digits per octet and one or
    two for the prefix length. *)
Definition cidr_text (net : string) : Prop :=
  ∃ a b c d p,
    net = (a ++ "." ++ b ++ "." ++ c ++ "." ++ d ++ "/" ++ p)%string ∧
    digits_upto 3 a ∧ digits_upto 3 b ∧ digits_upto 3 c ∧ digits_upto 3 d ∧
    digits_upto 2 p.

(** * Properties *)

(** ** Stripping and splitting *)

Section Strings.
Variable p : ascii → bool.

Lemma lstrip_by_idemp s : Py.lstrip_by p (Py.lstrip_by p s) = Py.lstrip_by p s.
Proof.
  induction s as [|c s IH]; simpl; [done|].
  destruct (p c) eqn:Hc; [done|]. simpl. by rewrite Hc.
Qed.

Lemma rstrip_lstrip_comm s :
  Py.rstrip_by p (Py.lstrip_by p s) = Py.lstrip_by p (Py.rstrip_by p s).
Proof.
  induction s as [|c s IH]; simpl; [done|].
  destruct (p c) eqn:Hc; simpl.
  - rewrite IH. destruct (Py.rstrip_by p s) eqn:Hr; simpl; [done|]. by rewrite Hc.
  - by rewrite Hc.
Qed.

Lemma rstrip_by_idemp s : Py.rstrip_by p (Py.rstrip_by p s) = Py.rstrip_by p s.
Proof.
  induction s as [|c s IH]; simpl; [done|].
  destruct (p c && Py.is_empty (Py.rstrip_by p s)) eqn:Hc; [done|].
  simpl. by rewrite IH, Hc.
Qed.

Lemma append_cons c (a b : string) : (String c a ++ b)%string = String c (a ++ b).
Proof. reflexivity. Qed.

Lemma rstrip_by_app_l a t :
  Py.rstrip_by p t ≠ EmptyString →
  Py.rstrip_by p (a ++ t) = (a ++ Py.rstrip_by p t)%string.
Proof.
  intros Ht. induction a as [|c a IH]; [done|].
  rewrite !append_cons. simpl. rewrite IH.
  destruct (a ++ Py.rstrip_by p t)%string eqn:Ha; [|by rewrite andb_false_r].
  destruct a; [done|discriminate].
Qed.

Lemma split_nonempty sep s : Py.split sep s ≠ [].
Proof.
  destruct s as [|c s]; simpl; [done|].
  destruct (Ascii.eqb c sep); [done|]. by destruct (Py.split sep s).
Qed.

End Strings.

(** ** [strip] before [split], and [int] on the pieces

    [wildcard_to_prefixlen] strips the wildcard with [str.strip] and
    parses the pieces with [int], whose own whitespace is a smaller set.
    A piece that [int] accepts is still accepted, with the same value,
    after the strip. *)

Lemma isspace_dot : Py.isspace "." = false.
Proof. reflexivity. Qed.

Lemma on_head_Forall {A} (P : A → Prop) f l :
  (∀ a, P a → P (f a)) → Forall P l → Forall P (on_head f l).
Proof. intros Hf [|a l' Ha Hl]; simpl; [done|]. constructor; auto. Qed.

Lemma on_last_Forall {A} (P : A → Prop) f l :
  (∀ a, P a → P (f a)) → Forall P l → Forall P (on_last f l).
Proof.
  intros Hf. induction 1 as [|a l' Ha Hl IH]; [done|].
  destruct l' as [|b l']; simpl; constructor; auto.
Qed.

(** Stripping the subject on the left strips the first piece and leaves
    the others alone. *)
Lemma split_lstrip_head p sep s :
  p sep = false →
  Py.split sep (Py.lstrip_by p s) = on_head (Py.lstrip_by p) (Py.split sep s).
Proof.
  intros Hsep. induction s as [|c s IH]; [done|].
  cbn [Py.lstrip_by Py.split]. destruct (p c) eqn:Hc.
  - destruct (Ascii.eqb_spec c sep) as [->|_]; [congruence|]. rewrite IH.
    pose proof (split_nonempty sep s) as Hs.
    destruct (Py.split sep s) as [|h t]; [done|].
    simpl. by rewrite Hc.
  - cbn [Py.split]. destruct (Ascii.eqb c sep); [done|].
    destruct (Py.split sep s) as [|h t]; cbn [on_head Py.lstrip_by]; by rewrite Hc.
Qed.

Lemma split_single_empty sep x y :
  Py.split sep x = [y] → Py.is_empty x = Py.is_empty y.
Proof.
  destruct x as [|c x]; simpl; [by intros [= <-]|].
  destruct (Ascii.eqb c sep).
  - intros [= _ H]. by destruct (split_nonempty sep x).
  - destruct (Py.split sep x); by intros [= <-].
Qed.

(** Stripping it on the right strips the last piece. *)
Lemma split_rstrip_last p sep s :
  p sep = false →
  Py.split sep (Py.rstrip_by p s) = on_last (Py.rstrip_by p) (Py.split sep s).
Proof.
  intros Hsep. induction s as [|c s IH]; [done|].
  cbn [Py.rstrip_by Py.split].
  destruct (Ascii.eqb_spec c sep) as [->|Hne].
  - rewrite Hsep. cbn [andb Py.split]. rewrite Ascii.eqb_refl, IH.
    pose proof (split_nonempty sep s) as Hs.
    by destruct (Py.split sep s) as [|h t].
  - destruct (Py.split sep s) as [|h [|h2 t]] eqn:Hs; [by destruct (split_nonempty sep s)| |].
    + cbn [on_last] in *. cbn [Py.rstrip_by].
      rewrite <- (split_single_empty _ _ _ IH).
      destruct (p c && Py.is_empty (Py.rstrip_by p s)); [done|].
      cbn [Py.split]. destruct (Ascii.eqb_spec c sep) as [|_]; [done|]. by rewrite IH.
    + assert (Py.is_empty (Py.rstrip_by p s) = false) as He.
      { destruct (Py.rstrip_by p s); [|done]. simpl in IH. injection IH as _ IH.
        by destruct t. }
      rewrite He, andb_false_r. cbn [Py.split].
      destruct (Ascii.eqb_spec c sep) as [|_]; [done|]. by rewrite IH.
Qed.

Lemma int_space_isspace c : Py.int_space c = true → Py.isspace c = true.
Proof. by destruct c as [[] [] [] [] [] [] [] []]. Qed.

Lemma rstrip_by_absorb (p q : ascii → bool) s :
  (∀ c, p c = true → q c = true) →
  Py.rstrip_by q (Py.rstrip_by p s) = Py.rstrip_by q s.
Proof.
  intros Hpq. induction s as [|c s IH]; [done|]. simpl.
  destruct (p c && Py.is_empty (Py.rstrip_by p s)) eqn:Hc.
  - apply andb_prop in Hc as [Hc He]. destruct (Py.rstrip_by p s); [|done].
    simpl in IH. by rewrite <- IH, (Hpq c Hc).
  - simpl. by rewrite IH.
Qed.

Lemma lstrip_by_absorb (p q : ascii → bool) s :
  (∀ c, p c = true → q c = true) →
  Py.lstrip_by q (Py.lstrip_by p s) = Py.lstrip_by q s.
Proof.
  intros Hpq. induction s as [|c s IH]; [done|]. simpl.
  destruct (p c) eqn:Hc; [by rewrite (Hpq c Hc)|done].
Qed.

Lemma rstrip_by_none q t : all_chars (fun c => negb (q c)) t = true → Py.rstrip_by q t = t.
Proof.
  induction t as [|c t IH]; [done|]. simpl. intros [Hc Ht]%andb_prop.
  apply negb_true_iff in Hc. by rewrite Hc, (IH Ht).
Qed.

Lemma rstrip_by_after_lstrip (p q : ascii → bool) r :
  Py.lstrip_by p r ≠ EmptyString →
  Py.rstrip_by q (Py.lstrip_by p r) = Py.lstrip_by p r →
  Py.rstrip_by q r = r.
Proof.
  induction r as [|c r IH]; [done|]. cbn [Py.lstrip_by].
  destruct (p c); [|done]. intros Hne Hfix. cbn [Py.rstrip_by].
  rewrite (IH Hne Hfix). destruct r; [done|]. by rewrite andb_false_r.
Qed.

Lemma int_digits_nonspace t acc b n :
  Py.int_digits t acc b = Ok n → all_chars Re.nonspace t = true.
Proof.
  revert acc b. induction t as [|c t IH]; intros acc b; [done|]. cbn [Py.int_digits all_chars].
  destruct (Py.isdigit c) eqn:Hd.
  - intros H%IH. rewrite H, andb_true_r. revert Hd. clear.
    by destruct c as [[] [] [] [] [] [] [] []].
  - destruct (Ascii.eqb_spec c "_") as [->|_]; [|done].
    destruct b; [|done]. intros H%IH. by rewrite H.
Qed.

Lemma int_literal_nonspace t n :
  Py.int_literal t = Ok n → t ≠ EmptyString ∧ all_chars Re.nonspace t = true.
Proof.
  unfold Py.int_literal. destruct (_ <? _); [done|]. intros H. split.
  - by destruct t.
  - by apply int_digits_nonspace in H.
Qed.

(** A string that [int] accepts is a run of non-blank characters between
    two runs of the whitespace [int] skips. *)
Lemma int_core_nonspace s n :
  Py.int s = Ok n →
  Py.lstrip_by Py.int_space (Py.rstrip_by Py.int_space s) ≠ EmptyString ∧
  all_chars Re.nonspace (Py.lstrip_by Py.int_space (Py.rstrip_by Py.int_space s)) = true.
Proof.
  unfold Py.int.
  destruct (Py.lstrip_by Py.int_space (Py.rstrip_by Py.int_space s)) as [|c t] eqn:Hcore;
    [done|].
  intros H. split; [done|].
  assert (∀ m, Py.int_literal t = Ok m → c = "+"%char ∨ c = "-"%char →
               all_chars Re.nonspace (String c t) = true) as Hsign.
  { intros m [_ Ht]%int_literal_nonspace [->| ->]; simpl; by rewrite Ht. }
  destruct (Ascii.eqb_spec c "+") as [->|Hp].
  { by apply (Hsign n); [|left]. }
  destruct (Ascii.eqb_spec c "-") as [->|Hm].
  { simpl in H. destruct (Py.int_literal t) as [m|] eqn:Hl; [|done].
    by apply (Hsign m); [|right]. }
  assert (Py.int_literal (String c t) = Ok n) as Hl.
  { revert H Hp Hm. clear. by destruct c as [[] [] [] [] [] [] [] []]. }
  by apply int_literal_nonspace in Hl as [_ Hl].
Qed.

(** So whatever [strip] takes away from it, [int] would have skipped too. *)
Lemma int_rstrip s n :
  Py.int s = Ok n → Py.int (Py.rstrip_by Py.isspace s) = Ok n.
Proof.
  intros H. destruct (int_core_nonspace s n H) as [Hne Hns].
  assert (Py.rstrip_by Py.isspace s = Py.rstrip_by Py.int_space s) as ->; [|].
  { rewrite <- (rstrip_by_absorb Py.int_space Py.isspace s int_space_isspace).
    apply (rstrip_by_after_lstrip Py.int_space); [done|]. by apply rstrip_by_none. }
  revert H. unfold Py.int. by rewrite rstrip_by_idemp.
Qed.

Lemma int_lstrip s n :
  Py.int s = Ok n → Py.int (Py.lstrip_by Py.isspace s) = Ok n.
Proof.
  intros H. destruct (int_core_nonspace s n H) as [Hne Hns].
  assert (Py.lstrip_by Py.isspace s = Py.lstrip_by Py.int_space s) as ->.
  { rewrite <- (lstrip_by_absorb Py.int_space Py.isspace s int_space_isspace).
    rewrite <- rstrip_lstrip_comm in Hne, Hns.
    destruct (Py.lstrip_by Py.int_space s) as [|c l]; [done|].
    cbn [Py.rstrip_by] in Hne, Hns.
    destruct (Py.int_space c && Py.is_empty (Py.rstrip_by Py.int_space l)); [done|].
    simpl in Hns. apply andb_prop in Hns as [Hc _].
    simpl. unfold Re.nonspace in Hc. apply negb_true_iff in Hc. by rewrite Hc. }
  revert H. unfold Py.int.
  by rewrite <- !(rstrip_lstrip_comm Py.int_space), lstrip_by_idemp.
Qed.

Lemma parses_to_byte_strip wc :
  Forall parses_to_byte (Py.split "." wc) →
  Forall parses_to_byte (Py.split "." (Py.strip wc)).
Proof.
  intros H. unfold Py.strip.
  rewrite (split_lstrip_head _ _ _ isspace_dot), (split_rstrip_last _ _ _ isspace_dot).
  apply on_head_Forall; [intros a (n & Hn & Hr); exists n; by split; [apply int_lstrip|]|].
  apply on_last_Forall; [intros a (n & Hn & Hr); exists n; by split; [apply int_rstrip|]|].
  done.
Qed.

(** ** The mask converter *)

Lemma count_ones_byte n :
  0 ≤ n ≤ 255 → Py.count "1" (Py.bin n) = bit_count8 n.
Proof.
  intros Hn.
  assert (forallb (fun k => Py.count "1" (Py.bin (Z.of_nat k)) =? bit_count8 (Z.of_nat k))
            (seq 0 256) = true) as Hall by (vm_compute; reflexivity).
  rewrite forallb_forall in Hall.
  specialize (Hall (Z.to_nat n)). rewrite Z2Nat.id in Hall by lia.
  apply Z.eqb_eq, Hall, in_seq. lia.
Qed.

Lemma bit_count8_range n : 0 ≤ bit_count8 n ≤ 8.
Proof.
  unfold bit_count8, Py.sum. cbn [map fold_left].
  repeat match goal with |- context [Z.testbit n ?i] => destruct (Z.testbit n i) end;
    cbn [Z.b2z]; lia.
Qed.

Lemma comprehension_length {A B} (f : A → result B) l ys :
  comprehension f l = Ok ys → length ys = length l.
Proof.
  revert ys. induction l as [|x l IH]; intros ys; simpl.
  - by intros [= <-].
  - destruct (f x) as [y|]; simpl; [|done].
    destruct (comprehension f l) as [ys'|]; simpl; [|done].
    intros [= <-]. simpl. f_equal. by apply IH.
Qed.

Lemma comprehension_Forall {A B} (f : A → result B) (P : B → Prop) l :
  Forall (fun x => ∃ y, f x = Ok y ∧ P y) l →
  ∃ ys, comprehension f l = Ok ys ∧ Forall P ys.
Proof.
  induction 1 as [|x l (y & Hy & HP) _ (ys & Hys & HPs)]; simpl.
  - by exists [].
  - exists (y :: ys). rewrite Hy, Hys. by split; [|constructor].
Qed.

Lemma pad4_length parts : length (pad4 parts) = 4%nat.
Proof. unfold pad4. rewrite length_take, length_app, repeat_length. lia. Qed.

Lemma pad4_Forall (P : string → Prop) parts :
  P "0" → Forall P parts → Forall P (pad4 parts).
Proof.
  intros H0 Hp. unfold pad4. apply Forall_take, Forall_app. split; [done|].
  simpl. by repeat constructor.
Qed.

Lemma wildcard_octets_length wc octets :
  wildcard_octets wc = Ok octets → length octets = 4%nat.
Proof.
  unfold wildcard_octets. destruct (String.eqb _ "0").
  - by intros [= <-].
  - intros H%comprehension_length. by rewrite H, pad4_length.
Qed.

(** What the converter returns once the four octets are known. *)
Lemma prefixlen_of_octets wc a b c d :
  wildcard_octets wc = Ok [a; b; c; d] →
  wildcard_to_prefixlen wc =
    Ok (Py.count "1" (Py.bin (255 - a)) + Py.count "1" (Py.bin (255 - b))
        + Py.count "1" (Py.bin (255 - c)) + Py.count "1" (Py.bin (255 - d))).
Proof. unfold wildcard_to_prefixlen. intros ->. reflexivity. Qed.

Lemma parses_to_byte_zero : parses_to_byte "0".
Proof. exists 0. by split; [reflexivity|lia]. Qed.

(** With wildcard octets in 0..255 the prefix length is the number of
    1-bits of the four complemented octets. *)
Lemma prefixlen_bit_count wc octets :
  wildcard_octets wc = Ok octets →
  Forall (fun o => 0 ≤ o ≤ 255) octets →
  ∃ a b c d,
    octets = [a; b; c; d] ∧
    wildcard_to_prefixlen wc =
      Ok (bit_count8 (255 - a) + bit_count8 (255 - b)
          + bit_count8 (255 - c) + bit_count8 (255 - d)).
Proof.
  intros Hoct Hrange.
  pose proof (wildcard_octets_length _ _ Hoct) as Hlen.
  destruct octets as [|a [|b [|c [|d [|]]]]]; try discriminate Hlen.
  exists a, b, c, d. split; [done|].
  rewrite (prefixlen_of_octets _ _ _ _ _ Hoct).
  repeat match goal with H : Forall _ (_ :: _) |- _ => inversion H; clear H; subst end.
  rewrite !count_ones_byte by lia. done.
Qed.

(** C2: the five documented conversions, and the rule behind them: with
    wildcard octets in 0..255 the prefix length is the number of 1-bits of
    the four complemented octets [255 - o]. *)
Theorem wildcard_to_prefixlen_bit_count :
  wildcard_to_prefixlen "0.0.0.0" = Ok 32 ∧
  wildcard_to_prefixlen "0" = Ok 32 ∧
  wildcard_to_prefixlen "0.0.0.255" = Ok 24 ∧
  wildcard_to_prefixlen "0.0.0.7" = Ok 29 ∧
  wildcard_to_prefixlen "255.255.255.255" = Ok 0 ∧
  ∀ wc octets,
    wildcard_octets wc = Ok octets →
    Forall (fun o => 0 ≤ o ≤ 255) octets →
    ∃ a b c d,
      octets = [a; b; c; d] ∧
      wildcard_to_prefixlen wc =
        Ok (bit_count8 (255 - a) + bit_count8 (255 - b)
            + bit_count8 (255 - c) + bit_count8 (255 - d)).
Proof.
  repeat (split; [reflexivity|]). apply prefixlen_bit_count.
Qed.

Lemma wildcard_to_prefixlen_bit_count_witness :
  wildcard_to_prefixlen "0.0.255.255" = Ok 16.
Proof.
  destruct wildcard_to_prefixlen_bit_count as (_ & _ & _ & _ & _ & H).
  destruct (H "0.0.255.255" [0; 0; 255; 255]) as (a & b & c & d & Heq & Hres).
  - reflexivity.
  - repeat constructor; lia.
  - injection Heq as <- <- <- <-. exact Hres.
Defined.

(** C8: on the literal "0", and on a wildcard whose at most four
    dot-separated pieces each parse to a byte, the converter returns, and
    what it returns lies in 0..32. *)
Theorem wildcard_to_prefixlen_range (wc : string) :
  wc = "0" ∨
    ((length (Py.split "." wc) ≤ 4)%nat ∧ Forall parses_to_byte (Py.split "." wc)) →
  ∃ r, wildcard_to_prefixlen wc = Ok r ∧ 0 ≤ r ≤ 32.
Proof.
  intros Hwc.
  assert (∃ octets, wildcard_octets wc = Ok octets ∧ Forall (fun o => 0 ≤ o ≤ 255) octets)
    as (octets & Hoct & Hrange).
  { destruct Hwc as [->|[_ Hparts]]; [exists [0; 0; 0; 0]; split; [done|repeat constructor; lia]|].
    unfold wildcard_octets. destruct (String.eqb _ "0").
    { exists [0; 0; 0; 0]. split; [done|repeat constructor; lia]. }
    apply comprehension_Forall, pad4_Forall; [apply parses_to_byte_zero|].
    by apply parses_to_byte_strip. }
  destruct (prefixlen_bit_count wc octets Hoct Hrange) as (a & b & c & d & _ & ->).
  eexists. split; [done|].
  pose proof (bit_count8_range (255 - a)). pose proof (bit_count8_range (255 - b)).
  pose proof (bit_count8_range (255 - c)). pose proof (bit_count8_range (255 - d)). lia.
Qed.

Lemma wildcard_to_prefixlen_range_witness :
  ((length (Py.split "." "0.0.0.7") ≤ 4)%nat ∧ Forall parses_to_byte (Py.split "." "0.0.0.7")) ∧
  ∃ r, wildcard_to_prefixlen "0.0.0.7" = Ok r ∧ 0 ≤ r ≤ 32.
Proof.
  assert ((length (Py.split "." "0.0.0.7") ≤ 4)%nat ∧
          Forall parses_to_byte (Py.split "." "0.0.0.7")) as H.
  { split; [simpl; lia|].
    cbn [Py.split Ascii.eqb Bool.eqb].
    repeat first [apply Forall_cons_2 | apply Forall_nil_2];
      (eexists; split; [vm_compute; reflexivity|lia]). }
  split; [exact H|]. apply (wildcard_to_prefixlen_range "0.0.0.7"). right. exact H.
Defined.

(** ** The line rewriter *)

(** What [convert_line] does on a line that matches. *)
Lemma convert_line_match line m n :
  Re.match_ LINE_PATTERN (Py.rstrip_by (Ascii.eqb Re.LF) line) = Some m →
  wildcard_to_prefixlen (Re.group m "wc") = Ok n →
  convert_line line =
    Ok (Re.group m "prefix" ++ Re.group m "ip" ++ "/" ++ Py.str_int n
        ++ Re.group m "suffix" ++ nl)%string.
Proof. unfold convert_line. intros -> ->. reflexivity. Qed.

(** C4: the documented rewrite.  The four captured pieces of the example
    line are as expected, and on every matching line the result is
    prefix, ip, a slash, the prefix length, suffix and one line feed. *)
Theorem convert_line_round_trip :
  convert_line ("  address 10 1.2.3.4 wildcard 0.0.0.7 description ABC" ++ nl)
    = Ok ("  address 10 1.2.3.4/29 description ABC" ++ nl)%string ∧
  Re.match_ LINE_PATTERN "  address 10 1.2.3.4 wildcard 0.0.0.7 description ABC"
    = Some [("suffix", " description ABC"); ("wc", "0.0.0.7");
            ("ip", "1.2.3.4"); ("prefix", "  address 10 ")] ∧
  ∀ line m n,
    Re.match_ LINE_PATTERN (Py.rstrip_by (Ascii.eqb Re.LF) line) = Some m →
    wildcard_to_prefixlen (Re.group m "wc") = Ok n →
    convert_line line =
      Ok (Re.group m "prefix" ++ Re.group m "ip" ++ "/" ++ Py.str_int n
          ++ Re.group m "suffix" ++ nl)%string.
Proof.
  split; [vm_compute; reflexivity|]. split; [vm_compute; reflexivity|].
  apply convert_line_match.
Qed.

Lemma convert_line_round_trip_witness :
  convert_line ("address 7 10.0.0.0 wildcard 0.0.0.255" ++ nl)
    = Ok ("address 7 10.0.0.0/24" ++ nl)%string.
Proof.
  destruct convert_line_round_trip as (_ & _ & H).
  apply (H ("address 7 10.0.0.0 wildcard 0.0.0.255" ++ nl)%string
           [("suffix", EmptyString); ("wc", "0.0.0.255"); ("ip", "10.0.0.0");
            ("prefix", "address 7 ")] 24).
  - vm_compute. reflexivity.
  - vm_compute. reflexivity.
Defined.

(** When [convert_line] returns at all. *)
Lemma convert_line_total_iff line :
  (∃ out, convert_line line = Ok out) ↔
  (Re.match_ LINE_PATTERN (Py.rstrip_by (Ascii.eqb Re.LF) line) = None ∨
   ∃ m octets,
     Re.match_ LINE_PATTERN (Py.rstrip_by (Ascii.eqb Re.LF) line) = Some m ∧
     wildcard_octets (Re.group m "wc") = Ok octets).
Proof.
  unfold convert_line, wildcard_to_prefixlen.
  destruct (Re.match_ _ _) as [m|]; [|by split; eauto].
  destruct (wildcard_octets _) as [octets|e] eqn:Hoct; simpl.
  - split; [|by eauto]. intros _. right. by exists m, octets.
  - split; [by intros [? [=]]|].
    intros [[=]|(m' & octets & [= <-] & Hoct')]. congruence.
Qed.

(** C10: a line of the address grammar whose wildcard token is not a
    number makes the rewriter raise; it returns exactly on the lines that
    do not match and on those whose wildcard octets parse. *)
Theorem convert_line_raises_on_bad_wildcard :
  (∃ line m,
     Re.match_ LINE_PATTERN (Py.rstrip_by (Ascii.eqb Re.LF) line) = Some m ∧
     Re.group m "wc" ≠ "0" ∧
     Exists (fun part => Py.int part = Raise ValueError) (Py.split "." (Re.group m "wc")) ∧
     convert_line line = Raise ValueError) ∧
  convert_line "address 1 1.2.3.4 wildcard foo description X" = Raise ValueError ∧
  ∀ line,
    (∃ out, convert_line line = Ok out) ↔
    (Re.match_ LINE_PATTERN (Py.rstrip_by (Ascii.eqb Re.LF) line) = None ∨
     ∃ m octets,
       Re.match_ LINE_PATTERN (Py.rstrip_by (Ascii.eqb Re.LF) line) = Some m ∧
       wildcard_octets (Re.group m "wc") = Ok octets).
Proof.
  split; [|split; [vm_compute; reflexivity|apply convert_line_total_iff]].
  exists "address 1 1.2.3.4 wildcard foo description X".
  eexists. split; [vm_compute; reflexivity|].
  split; [done|]. split; [|vm_compute; reflexivity].
  apply Exists_cons_hd. vm_compute. reflexivity.
Qed.

Lemma convert_line_raises_on_bad_wildcard_witness :
  ∃ out, convert_line "# not an address line" = Ok out.
Proof.
  destruct convert_line_raises_on_bad_wildcard as (_ & _ & H).
  apply (H "# not an address line"). left. vm_compute. reflexivity.
Defined.

(** ** The block scanner *)

Section Scanner.

Lemma nonempty_true {A} (l : list A) : nonempty l = true ↔ l ≠ [].
Proof. by destruct l. Qed.

Lemma scan_snoc pre line : scan (pre ++ [line]) = scan_line (scan pre) line.
Proof. unfold scan. by rewrite fold_left_app. Qed.

Lemma scan_line_live st line : live_buffer st → live_buffer (scan_line st line).
Proof.
  unfold live_buffer, scan_line. intros Hst.
  destruct (Py.startswith _ _).
  { simpl. intros _. by destruct (current_block (flush st)). }
  destruct (in_block st) eqn:Hin; [|by rewrite Hin].
  destruct (String.eqb _ "#"); simpl; [done|].
  intros _. by destruct (current_block st).
Qed.

Lemma scan_live lines : live_buffer (scan lines).
Proof.
  induction lines as [|line pre IH] using rev_ind; [done|].
  rewrite scan_snoc. by apply scan_line_live.
Qed.

(** Blocks already emitted are never touched again. *)
Lemma flush_emitted_before b0 st :
  flush (emitted_before b0 st) = emitted_before b0 (flush st).
Proof.
  unfold flush, emitted_before. simpl.
  destruct (in_block st && nonempty (current_block st)); simpl; [|done].
  by rewrite app_assoc.
Qed.

Lemma scan_line_emitted_before b0 st line :
  scan_line (emitted_before b0 st) line = emitted_before b0 (scan_line st line).
Proof.
  unfold scan_line. destruct (Py.startswith _ _).
  - by rewrite flush_emitted_before.
  - simpl. destruct (in_block st); [|done].
    destruct (String.eqb _ "#"); [|done].
    unfold emitted_before. simpl. by rewrite app_assoc.
Qed.

Lemma fold_scan_emitted_before b0 lines st :
  fold_left scan_line lines (emitted_before b0 st)
  = emitted_before b0 (fold_left scan_line lines st).
Proof.
  revert st. induction lines as [|line lines IH]; intros st; simpl; [done|].
  by rewrite scan_line_emitted_before, IH.
Qed.

(** The scanner step on a stanza-open line met inside a stanza. *)
Lemma scan_line_reentry st line :
  live_buffer st → in_block st = true →
  Py.startswith (Py.strip line) start_token = true →
  scan_line st line
  = Scanner (blocks st ++ [Py.join (current_block st)]) [line] true.
Proof.
  intros Hlive Hin Hopen. unfold scan_line. rewrite Hopen. unfold flush.
  rewrite Hin. apply Hlive, nonempty_true in Hin. by rewrite Hin.
Qed.

End Scanner.

(** C3: a stanza-open line met while inside a stanza closes the pending
    buffer as it stands, with no "#" line needed, and opens a new buffer
    that starts with that line; the closed buffer is part of the final
    result, right before the stanzas that start at the triggering line. *)
Theorem extract_blocks_reentry (pre : list string) (line : string) :
  in_block (scan pre) = true →
  Py.startswith (Py.strip line) start_token = true →
  scan (pre ++ [line])
  = Scanner (blocks (scan pre) ++ [Py.join (current_block (scan pre))]) [line] true ∧
  current_block (scan pre) ≠ [] ∧
  ∀ post,
    extract_blocks_from_file (pre ++ line :: post)
    = (blocks (scan pre) ++ [Py.join (current_block (scan pre))]
       ++ extract_blocks_from_file (line :: post))%list.
Proof.
  intros Hin Hopen.
  pose proof (scan_line_reentry _ line (scan_live pre) Hin Hopen) as Hstep.
  split; [by rewrite scan_snoc|]. split; [by apply scan_live|].
  intros post. unfold extract_blocks_from_file, scan.
  rewrite fold_left_app. cbn [fold_left]. fold (scan pre). rewrite Hstep.
  assert (scan_line (Scanner [] [] false) line = Scanner [] [line] true) as ->.
  { unfold scan_line. by rewrite Hopen. }
  set (done_ := (blocks (scan pre) ++ [Py.join (current_block (scan pre))])%list).
  assert (Scanner done_ [line] true = emitted_before done_ (Scanner [] [line] true)) as ->.
  { unfold emitted_before. simpl. by rewrite app_nil_r. }
  rewrite fold_scan_emitted_before, flush_emitted_before. simpl.
  unfold done_. by rewrite <- app_assoc.
Qed.

Lemma extract_blocks_reentry_witness :
  extract_blocks_from_file
    ["ip address-set internationalgn a" ++ nl; " address 0 1.1.1.1 wildcard 0" ++ nl;
     "ip address-set internationalgn b" ++ nl; "#" ++ nl]%string
  = ["ip address-set internationalgn a" ++ nl ++ " address 0 1.1.1.1 wildcard 0" ++ nl;
     "ip address-set internationalgn b" ++ nl ++ "#" ++ nl]%string.
Proof.
  destruct (extract_blocks_reentry
              ["ip address-set internationalgn a" ++ nl; " address 0 1.1.1.1 wildcard 0" ++ nl]%string
              ("ip address-set internationalgn b" ++ nl)%string) as (_ & _ & H).
  - reflexivity.
  - reflexivity.
  - exact (H ["#" ++ nl]%string).
Defined.

(** ** The reconcilers *)

Section Reconcile.
Implicit Types (excel_map txt_map : gmap string (gset string)).
Implicit Types (op net : string) (nets : gset string).

(** The append loop over a set is a filter of its elements. *)
Lemma collect_diff_filter (known : gset string) nets :
  collect_diff known nets
  = filter (fun net => normalize_net (Some net) ∉ known) (elements nets).
Proof.
  unfold collect_diff.
  enough (∀ l acc,
    fold_left (fun diff_nets net =>
                 if decide (normalize_net (Some net) ∉ known)
                 then (diff_nets ++ [net])%list else diff_nets) l acc
    = (acc ++ filter (fun net => normalize_net (Some net) ∉ known) l)%list) as H
    by apply (H _ []).
  induction l as [|net l IH]; intros acc; simpl.
  - by rewrite app_nil_r.
  - rewrite IH, filter_cons. case_decide; [|done]. by rewrite <- app_assoc.
Qed.

Lemma elem_of_collect_diff (known : gset string) nets net :
  net ∈ collect_diff known nets ↔ (normalize_net (Some net) ∉ known) ∧ net ∈ nets.
Proof. by rewrite collect_diff_filter, list_elem_of_filter, elem_of_elements. Qed.

Lemma collect_diff_empty nets : collect_diff ∅ nets = elements nets.
Proof.
  rewrite collect_diff_filter. induction (elements nets) as [|net l IH]; [done|].
  rewrite filter_cons, IH. case_decide as H; [done|]. set_solver.
Qed.

Lemma nonempty_false {A} (l : list A) : nonempty l = false ↔ l = [].
Proof. by destruct l. Qed.

Lemma elem_of_sorted l net : net ∈ sorted l ↔ net ∈ l.
Proof. unfold sorted. by rewrite merge_sort_Permutation. Qed.

Lemma Sorted_sorted l : Sorted String.le (sorted l).
Proof. apply (Sorted_merge_sort String.le). Qed.

(** What [compare_and_output] leaves under each carrier. *)
Lemma compare_and_output_lookup excel_map txt_map op :
  diff_exist (compare_and_output excel_map txt_map) !! op
  = (nets ← txt_map !! op; excel_nets ← excel_map !! op;
     let diff_nets :=
       collect_diff (set_map (fun n => normalize_net (Some n)) excel_nets) nets in
     if nonempty diff_nets then Some (sorted diff_nets) else None) ∧
  diff_not_exist (compare_and_output excel_map txt_map) !! op
  = (nets ← txt_map !! op;
     match excel_map !! op with
     | None => Some (sorted (elements nets))
     | Some _ => None
     end).
Proof.
  unfold compare_and_output. revert op.
  apply (map_fold_weak_ind (fun r (m : gmap string (gset string)) => ∀ op,
    diff_exist r !! op
    = (nets ← m !! op; excel_nets ← excel_map !! op;
       let diff_nets :=
         collect_diff (set_map (fun n => normalize_net (Some n)) excel_nets) nets in
       if nonempty diff_nets then Some (sorted diff_nets) else None) ∧
    diff_not_exist r !! op
    = (nets ← m !! op;
       match excel_map !! op with
       | None => Some (sorted (elements nets))
       | Some _ => None
       end))).
  - intros op. by rewrite !lookup_empty.
  - intros i nets m r Hi IH op. unfold compare_step.
    destruct (decide (op = i)) as [->|Hne].
    + destruct (IH i) as [IH1 IH2]. rewrite Hi in IH1, IH2. simpl in IH1, IH2.
      rewrite lookup_insert_eq. simpl.
      destruct (excel_map !! i) as [excel_nets|]; simpl.
      * destruct (nonempty _); simpl; by rewrite ?lookup_insert_eq.
      * by rewrite lookup_insert_eq.
    + destruct (IH op) as [IH1 IH2]. rewrite lookup_insert_ne by done.
      destruct (excel_map !! i) as [excel_nets|]; simpl.
      * destruct (nonempty _); simpl; by rewrite ?lookup_insert_ne.
      * by rewrite lookup_insert_ne.
Qed.

(** What [main] of [2.文本表格比较.py] leaves under each carrier. *)
Lemma main_lookup excel_map txt_map op :
  TableCompare.main excel_map txt_map !! op
  = (nets ← txt_map !! op;
     let diff_nets := collect_diff (default ∅ (excel_map !! op)) nets in
     if nonempty diff_nets then Some (sorted diff_nets) else None).
Proof.
  unfold TableCompare.main. revert op.
  apply (map_fold_weak_ind (fun r (m : gmap string (gset string)) => ∀ op,
    r !! op
    = (nets ← m !! op;
       let diff_nets := collect_diff (default ∅ (excel_map !! op)) nets in
       if nonempty diff_nets then Some (sorted diff_nets) else None))).
  - intros op. by rewrite !lookup_empty.
  - intros i nets m r Hi IH op. unfold TableCompare.diff_step.
    destruct (decide (op = i)) as [->|Hne].
    + specialize (IH i). rewrite Hi in IH. simpl in IH.
      rewrite lookup_insert_eq. simpl.
      destruct (nonempty _); simpl; by rewrite ?lookup_insert_eq.
    + rewrite lookup_insert_ne by done.
      destruct (nonempty _); simpl; by rewrite ?lookup_insert_ne.
Qed.

End Reconcile.

(** Replace the lookups in a report by their closed form. *)
Ltac report_lookup :=
  rewrite ?(proj1 (compare_and_output_lookup _ _ _)),
    ?(proj2 (compare_and_output_lookup _ _ _)).

Section Report.
Implicit Types (excel_map txt_map : gmap string (gset string)).
Implicit Types (op net : string) (nets : gset string).

Lemma diff_exist_Some excel_map txt_map op l :
  diff_exist (compare_and_output excel_map txt_map) !! op = Some l →
  ∃ nets excel_nets,
    txt_map !! op = Some nets ∧ excel_map !! op = Some excel_nets ∧
    l = sorted (collect_diff (set_map (fun n => normalize_net (Some n)) excel_nets) nets) ∧
    l ≠ [].
Proof.
  report_lookup.
  destruct (txt_map !! op) as [nets|]; [|done].
  destruct (excel_map !! op) as [excel_nets|]; [|done]. simpl.
  destruct (collect_diff _ _) as [|net l'] eqn:Hd; simpl; [done|].
  intros [= <-]. exists nets, excel_nets.
  split; [done|]. split; [done|]. split; [by rewrite Hd|].
  intros Hnil. assert (net ∈ sorted (net :: l')) as Hin
    by (apply elem_of_sorted; left).
  rewrite Hnil in Hin. by apply not_elem_of_nil in Hin.
Qed.

Lemma diff_not_exist_Some excel_map txt_map op l :
  diff_not_exist (compare_and_output excel_map txt_map) !! op = Some l →
  ∃ nets,
    txt_map !! op = Some nets ∧ excel_map !! op = None ∧ l = sorted (elements nets).
Proof.
  report_lookup.
  destruct (txt_map !! op) as [nets|]; [|done].
  destruct (excel_map !! op) as [excel_nets|]; [done|]. simpl.
  intros [= <-]. by exists nets.
Qed.

(** Every list of the report is in ascending order. *)
Lemma report_sorted excel_map txt_map op l :
  diff_exist (compare_and_output excel_map txt_map) !! op = Some l ∨
  diff_not_exist (compare_and_output excel_map txt_map) !! op = Some l →
  Sorted String.le l.
Proof.
  intros [H|H].
  - apply diff_exist_Some in H as (? & ? & _ & _ & -> & _). apply Sorted_sorted.
  - apply diff_not_exist_Some in H as (? & _ & _ & ->). apply Sorted_sorted.
Qed.

End Report.

(** C1: the documented scenario, with the two general facts it
    illustrates: every reported list is sorted, and a carrier the register
    does not know is reported with all of its inventory nets. *)
Theorem compare_and_output_scenario :
  compare_and_output
    {[ "CT" := {[ "1.2.3.0/24" ]} ]}
    (<[ "CT" := {[ "1.2.3.0/24"; "5.6.7.0/28" ]} ]> {[ "CU" := {[ "9.9.9.0/30" ]} ]})
  = Report {[ "CT" := ["5.6.7.0/28"] ]} {[ "CU" := ["9.9.9.0/30"] ]} ∧
  (∀ excel_map txt_map op l,
     diff_exist (compare_and_output excel_map txt_map) !! op = Some l ∨
     diff_not_exist (compare_and_output excel_map txt_map) !! op = Some l →
     Sorted String.le l) ∧
  (∀ excel_map txt_map op nets,
     txt_map !! op = Some nets → excel_map !! op = None →
     ∃ l, diff_not_exist (compare_and_output excel_map txt_map) !! op = Some l ∧
          Sorted String.le l ∧ ∀ net, net ∈ l ↔ net ∈ nets).
Proof.
  split; [vm_compute; reflexivity|]. split; [apply report_sorted|].
  intros excel_map txt_map op nets Htxt Hexcel.
  exists (sorted (elements nets)).
  report_lookup. rewrite Htxt, Hexcel.
  split; [done|]. split; [apply Sorted_sorted|].
  intros net. by rewrite elem_of_sorted, elem_of_elements.
Qed.

Lemma compare_and_output_scenario_witness :
  ∃ l, diff_not_exist (compare_and_output ∅ {[ "CU" := {[ "9.9.9.0/30"; "9.9.8.0/30" ]} ]})
         !! "CU" = Some l ∧
       Sorted String.le l ∧ ∀ net, net ∈ l ↔ net ∈ ({[ "9.9.9.0/30"; "9.9.8.0/30" ]} : gset string).
Proof.
  destruct compare_and_output_scenario as (_ & _ & H).
  apply (H ∅ {[ "CU" := {[ "9.9.9.0/30"; "9.9.8.0/30" ]} ]} "CU").
  - reflexivity.
  - reflexivity.
Defined.

(** C5: the report only names inventory carriers, its two sections never
    share a carrier, and a carrier known to the register whose inventory
    nets all normalize into the register's normalized set is left out. *)
Theorem report_partition (excel_map txt_map : gmap string (gset string)) :
  (∀ op, op ∈ dom (diff_exist (compare_and_output excel_map txt_map))
         ∪ dom (diff_not_exist (compare_and_output excel_map txt_map)) →
         op ∈ dom txt_map) ∧
  (∀ op, op ∈ dom excel_map → op ∉ dom txt_map →
         diff_exist (compare_and_output excel_map txt_map) !! op = None ∧
         diff_not_exist (compare_and_output excel_map txt_map) !! op = None) ∧
  dom (diff_exist (compare_and_output excel_map txt_map))
    ## dom (diff_not_exist (compare_and_output excel_map txt_map)) ∧
  (∀ op nets excel_nets,
     txt_map !! op = Some nets → excel_map !! op = Some excel_nets →
     (∀ net, net ∈ nets →
        ∃ n, n ∈ excel_nets ∧ normalize_net (Some net) = normalize_net (Some n)) →
     diff_exist (compare_and_output excel_map txt_map) !! op = None ∧
     diff_not_exist (compare_and_output excel_map txt_map) !! op = None).
Proof.
  split; [|split; [|split]].
  - intros op [Hop|Hop]%elem_of_union; apply elem_of_dom in Hop as [l Hl];
      apply elem_of_dom.
    + apply diff_exist_Some in Hl as (nets & _ & -> & _). eauto.
    + apply diff_not_exist_Some in Hl as (nets & -> & _). eauto.
  - intros op _ Hop%not_elem_of_dom.
    report_lookup. by rewrite Hop.
  - intros op [l1 H1]%elem_of_dom [l2 H2]%elem_of_dom.
    apply diff_exist_Some in H1 as (? & ? & _ & H1 & _).
    apply diff_not_exist_Some in H2 as (? & _ & H2 & _). congruence.
  - intros op nets excel_nets Htxt Hexcel Hall.
    report_lookup. rewrite Htxt, Hexcel. simpl.
    split; [|done].
    destruct (collect_diff _ _) as [|net l] eqn:Hd; [done|]. exfalso.
    assert (net ∈ net :: l) as Hin by left.
    rewrite <- Hd in Hin. apply elem_of_collect_diff in Hin as [Hnot Hin].
    destruct (Hall net Hin) as (n & Hn & Heq). apply Hnot.
    rewrite Heq. by apply (elem_of_map_2 (fun n => normalize_net (Some n))).
Qed.

Lemma report_partition_witness :
  diff_exist (compare_and_output {[ "CT" := {[ "1.2.3.0/24" ]} ]}
                                 {[ "CT" := {[ "1.2.3.0 /24" ]} ]}) !! "CT" = None ∧
  diff_not_exist (compare_and_output {[ "CT" := {[ "1.2.3.0/24" ]} ]}
                                     {[ "CT" := {[ "1.2.3.0 /24" ]} ]}) !! "CT" = None.
Proof.
  destruct (report_partition {[ "CT" := {[ "1.2.3.0/24" ]} ]}
                             {[ "CT" := {[ "1.2.3.0 /24" ]} ]}) as (_ & _ & _ & H).
  apply (H "CT" {[ "1.2.3.0 /24" ]} {[ "1.2.3.0/24" ]}).
  - reflexivity.
  - reflexivity.
  - intros net ->%elem_of_singleton. exists "1.2.3.0/24".
    split; [by apply elem_of_singleton|reflexivity].
Defined.

Lemma sub_spaces_app a b : sub_spaces (a ++ b) = (sub_spaces a ++ sub_spaces b)%string.
Proof.
  induction a as [|c a IH]; simpl; [done|].
  destruct (Py.isspace c); simpl; by rewrite IH.
Qed.

Lemma sub_spaces_filter s :
  list_ascii_of_string (sub_spaces s)
  = filter (fun c => Py.isspace c = false) (list_ascii_of_string s).
Proof.
  induction s as [|c s IH]; simpl; [done|].
  rewrite filter_cons. case_decide as Hc.
  - rewrite Hc. simpl. by rewrite IH.
  - apply not_false_is_true in Hc. by rewrite Hc.
Qed.

(** C6: normalization keeps exactly the characters that are not
    whitespace, so the two spellings of the example normalize alike, and
    an inventory net whose normal form is that of a register net of the
    same carrier is in no list of the report. *)
Theorem normalize_net_equivalence :
  normalize_net (Some "1.2.3.0 /24") = normalize_net (Some "1.2.3.0/24") ∧
  (∀ s, list_ascii_of_string (normalize_net (Some s))
        = filter (fun c => Py.isspace c = false) (list_ascii_of_string s)) ∧
  (∀ a c b, Py.isspace c = true →
     normalize_net (Some (a ++ String c b)) = normalize_net (Some (a ++ b))) ∧
  compare_and_output {[ "CT" := {[ "1.2.3.0/24" ]} ]} {[ "CT" := {[ "1.2.3.0 /24" ]} ]}
  = Report ∅ ∅ ∧
  (∀ (excel_map txt_map : gmap string (gset string)) op nets excel_nets net n,
     txt_map !! op = Some nets → excel_map !! op = Some excel_nets →
     net ∈ nets → n ∈ excel_nets →
     normalize_net (Some net) = normalize_net (Some n) →
     ∀ l, diff_exist (compare_and_output excel_map txt_map) !! op = Some l ∨
          diff_not_exist (compare_and_output excel_map txt_map) !! op = Some l →
          net ∉ l).
Proof.
  split; [reflexivity|]. split; [apply sub_spaces_filter|].
  split; [|split; [vm_compute; reflexivity|]].
  - intros a c b Hc. unfold normalize_net. rewrite !sub_spaces_app. simpl. by rewrite Hc.
  - intros excel_map txt_map op nets excel_nets net n Htxt Hexcel Hnet Hn Heq l [Hl|Hl].
    + apply diff_exist_Some in Hl as (nets' & excel_nets' & Htxt' & Hexcel' & -> & _).
      rewrite Htxt in Htxt'. rewrite Hexcel in Hexcel'.
      injection Htxt' as <-. injection Hexcel' as <-.
      rewrite elem_of_sorted, elem_of_collect_diff. intros [Hnot _]. apply Hnot.
      rewrite Heq. by apply (elem_of_map_2 (fun n => normalize_net (Some n))).
    + apply diff_not_exist_Some in Hl as (_ & _ & Hexcel' & _). congruence.
Qed.

Lemma normalize_net_equivalence_witness :
  diff_exist (compare_and_output {[ "CT" := {[ "94.201.225.0/24" ]} ]}
                {[ "CT" := {[ "94. 201.225.0/24"; "5.6.7.0/28" ]} ]}) !! "CT"
  = Some ["5.6.7.0/28"] ∧
  "94. 201.225.0/24" ∉ ["5.6.7.0/28"].
Proof.
  assert (diff_exist (compare_and_output {[ "CT" := {[ "94.201.225.0/24" ]} ]}
                        {[ "CT" := {[ "94. 201.225.0/24"; "5.6.7.0/28" ]} ]}) !! "CT"
          = Some ["5.6.7.0/28"]) as Hl by (vm_compute; reflexivity).
  split; [exact Hl|].
  destruct normalize_net_equivalence as (_ & _ & _ & _ & H).
  apply (H {[ "CT" := {[ "94.201.225.0/24" ]} ]}
           {[ "CT" := {[ "94. 201.225.0/24"; "5.6.7.0/28" ]} ]}
           "CT" {[ "94. 201.225.0/24"; "5.6.7.0/28" ]} {[ "94.201.225.0/24" ]}
           "94. 201.225.0/24" "94.201.225.0/24").
  - reflexivity.
  - reflexivity.
  - apply elem_of_union_l. by apply elem_of_singleton.
  - by apply elem_of_singleton.
  - reflexivity.
  - left. exact Hl.
Defined.

(** ** What the loaders guarantee *)

Section Loaded.
Implicit Types (m : gmap string (gset string)).

Lemma sub_spaces_idemp s : sub_spaces (sub_spaces s) = sub_spaces s.
Proof.
  induction s as [|c s IH]; simpl; [done|].
  destruct (Py.isspace c) eqn:Hc; simpl; [done|]. by rewrite Hc, IH.
Qed.

Lemma add_net_lookup m op net k :
  add_net m op net !! k
  = if decide (op = k) then Some (m !!! op ∪ {[net]}) else m !! k.
Proof. unfold add_net. apply lookup_insert. Qed.

Lemma add_net_normalized m op net :
  normalized_register m → normalize_net (Some net) = net →
  normalized_register (add_net m op net).
Proof.
  intros Hm Hnet k nets n. rewrite add_net_lookup. case_decide as Hk; [|apply Hm].
  intros [= <-] [Hn| ->%elem_of_singleton]%elem_of_union; [|done].
  rewrite lookup_total_alt in Hn.
  destruct (m !! op) as [nets|] eqn:Hop; simpl in Hn; [by apply (Hm op nets)|].
  by apply not_elem_of_empty in Hn.
Qed.

Lemma add_net_no_empty m op net :
  no_empty_carrier m → no_empty_carrier (add_net m op net).
Proof.
  intros Hm k nets. rewrite add_net_lookup. case_decide as Hk; [|apply Hm].
  intros [= <-]. set_solver.
Qed.

Lemma fold_left_invariant {A B} (P : A → Prop) (f : A → B → A) l a :
  (∀ a b, P a → P (f a b)) → P a → P (fold_left f l a).
Proof.
  intros Hf. revert a. induction l as [|b l IH]; intros a Ha; simpl; [done|].
  by apply IH, Hf.
Qed.

(** Every net of a loaded register is in normal form. *)
Lemma load_excel_gn_map_normalized rows : normalized_register (load_excel_gn_map rows).
Proof.
  unfold load_excel_gn_map. apply fold_left_invariant; [|by intros ? ? ? ?].
  intros m [op gn_cell] Hm. unfold load_row.
  destruct (isna gn_cell); [done|]. destruct (Py.is_empty _); [done|].
  apply fold_left_invariant; [|done].
  intros m' part Hm'. unfold load_part.
  destruct (Py.is_empty _); [done|]. destruct (Py.is_empty _); [done|].
  apply add_net_normalized; [done|]. apply sub_spaces_idemp.
Qed.

(** Every carrier of a loaded inventory has a net. *)
Lemma load_txt_gn_map_no_empty search lines :
  no_empty_carrier (load_txt_gn_map search lines).
Proof.
  unfold load_txt_gn_map. apply fold_left_invariant; [|by intros ? ? ?].
  intros m line Hm. unfold load_line.
  destruct (search line) as [[g1 g2]|]; [|done].
  destruct (_ && _); [|done]. by apply add_net_no_empty.
Qed.

(** On such maps the one-bucket diff is the union of the two buckets. *)
Lemma main_merged (excel_map txt_map : gmap string (gset string)) :
  no_empty_carrier txt_map → normalized_register excel_map →
  TableCompare.main excel_map txt_map = merged (compare_and_output excel_map txt_map).
Proof.
  intros Hne Hnorm. apply map_eq. intros op. unfold merged.
  rewrite main_lookup, lookup_union. report_lookup.
  destruct (txt_map !! op) as [nets|] eqn:Htxt; [|done].
  destruct (excel_map !! op) as [excel_nets|] eqn:Hexcel; cbn [mbind option_bind default].
  - assert (set_map (fun n => normalize_net (Some n)) excel_nets = excel_nets) as ->.
    { apply set_eq. intros x. rewrite elem_of_map. split.
      - intros (n & -> & Hn). by rewrite (Hnorm op excel_nets n).
      - intros Hx. exists x. by rewrite (Hnorm op excel_nets x). }
    by destruct (nonempty _).
  - rewrite collect_diff_empty.
    destruct (elements nets) as [|net l] eqn:Hel; [|done].
    apply elements_empty_inv, leibniz_equiv in Hel. by destruct (Hne op nets).
Qed.

Lemma buckets_disjoint (excel_map txt_map : gmap string (gset string)) :
  dom (diff_exist (compare_and_output excel_map txt_map))
    ## dom (diff_not_exist (compare_and_output excel_map txt_map)).
Proof.
  intros op [l1 H1]%elem_of_dom [l2 H2]%elem_of_dom.
  apply diff_exist_Some in H1 as (? & ? & _ & H1 & _).
  apply diff_not_exist_Some in H2 as (? & _ & H2 & _). congruence.
Qed.

(** The two tools agree on whatever sheet and text they are run on. *)
Lemma main_merged_loaded search rows lines :
  TableCompare.main (load_excel_gn_map rows) (load_txt_gn_map search lines)
  = merged (compare_and_output (load_excel_gn_map rows) (load_txt_gn_map search lines)).
Proof.
  apply main_merged;
    [apply load_txt_gn_map_no_empty|apply load_excel_gn_map_normalized].
Qed.

End Loaded.

(** C9: the two reconcilers agree on every pair of maps they are ever run
    on, that is, on what the two loaders build from a sheet and a text,
    whatever the text search finds: carrier by carrier, the one-bucket
    diff of [main] is the union of the two buckets of
    [compare_and_output], no carrier is in both buckets, and the lists are
    sorted. *)
Theorem main_refines_compare_and_output
    (search : string → option (string * string))
    (rows : list (cell * cell)) (lines : list string) :
  TableCompare.main (load_excel_gn_map rows) (load_txt_gn_map search lines)
  = merged (compare_and_output (load_excel_gn_map rows) (load_txt_gn_map search lines)) ∧
  dom (diff_exist
         (compare_and_output (load_excel_gn_map rows) (load_txt_gn_map search lines)))
    ## dom (diff_not_exist
              (compare_and_output (load_excel_gn_map rows) (load_txt_gn_map search lines))) ∧
  ∀ op l,
    TableCompare.main (load_excel_gn_map rows) (load_txt_gn_map search lines) !! op = Some l →
    Sorted String.le l.
Proof.
  split; [apply main_merged_loaded|]. split; [apply buckets_disjoint|].
  intros op l. rewrite main_merged_loaded. unfold merged.
  intros [H|[_ H]]%lookup_union_Some_raw; eapply report_sorted; eauto.
Qed.

(** ** The register loader *)

Section Loader.
Implicit Types (m : gmap string (gset string)) (rows : list (cell * cell)).

Lemma load_rows_fused last rows m :
  fold_left load_row (zip (ffill_from last (map fst rows)) (map snd rows)) m
  = load_rows last rows m.
Proof.
  revert last m. induction rows as [|[op gn_cell] rows IH]; intros last m; [done|].
  simpl. by rewrite IH.
Qed.

Lemma load_excel_gn_map_fused rows : load_excel_gn_map rows = load_rows None rows ∅.
Proof. apply load_rows_fused. Qed.

(** The loader only ever adds nets. *)
Lemma add_net_mono m op net k : m !!! k ⊆ add_net m op net !!! k.
Proof.
  unfold add_net. destruct (decide (op = k)) as [->|Hne].
  - rewrite lookup_total_insert_eq. set_solver.
  - by rewrite lookup_total_insert_ne.
Qed.

Lemma load_part_mono op m part k : m !!! k ⊆ load_part op m part !!! k.
Proof.
  unfold load_part. destruct (Py.is_empty _); [done|].
  destruct (Py.is_empty _); [done|]. apply add_net_mono.
Qed.

Lemma fold_load_part_mono op parts m k :
  m !!! k ⊆ fold_left (load_part op) parts m !!! k.
Proof.
  revert m. induction parts as [|part parts IH]; intros m; simpl; [done|].
  etrans; [apply (load_part_mono op m part)|apply IH].
Qed.

Lemma load_row_mono m row k : m !!! k ⊆ load_row m row !!! k.
Proof.
  destruct row as [op gn_cell]. unfold load_row.
  destruct (isna gn_cell); [done|]. destruct (Py.is_empty _); [done|].
  apply fold_load_part_mono.
Qed.

Lemma load_rows_mono last rows m k : m !!! k ⊆ load_rows last rows m !!! k.
Proof.
  revert last m. induction rows as [|[op gn_cell] rows IH]; intros last m;
    cbn [load_rows]; [done|].
  etrans; [apply load_row_mono|apply IH].
Qed.

(** A stripped string is empty or starts with a character that is not
    whitespace, so its normal form is empty only if it is. *)
Lemma strip_head s :
  match Py.strip s with
  | EmptyString => True
  | String c _ => Py.isspace c = false
  end.
Proof.
  unfold Py.strip. induction (Py.rstrip_by Py.isspace s) as [|c r IH]; simpl; [done|].
  destruct (Py.isspace c) eqn:Hc; [done|]. simpl. done.
Qed.

Lemma normalize_strip_nonempty part :
  Py.is_empty (Py.strip part) = false →
  Py.is_empty (normalize_net (Some (Py.strip part))) = false.
Proof.
  pose proof (strip_head part) as H. destruct (Py.strip part) as [|c r]; [done|].
  intros _. simpl. by rewrite H.
Qed.

Lemma load_part_adds op m part :
  Py.is_empty (Py.strip part) = false →
  normalize_net (Some (Py.strip part)) ∈ load_part op m part !!! op.
Proof.
  intros Hpart. unfold load_part.
  rewrite Hpart, (normalize_strip_nonempty _ Hpart).
  unfold add_net. rewrite lookup_total_insert_eq. set_solver.
Qed.

Lemma fold_load_part_adds op parts m part :
  part ∈ parts → Py.is_empty (Py.strip part) = false →
  normalize_net (Some (Py.strip part)) ∈ fold_left (load_part op) parts m !!! op.
Proof.
  intros Hin Hpart. revert m.
  induction parts as [|part' parts IH]; intros m; [by apply not_elem_of_nil in Hin|].
  simpl. apply elem_of_cons in Hin as [->|Hin]; [|by apply IH].
  apply (fold_load_part_mono op parts _ op), load_part_adds, Hpart.
Qed.

(** Rows with an empty carrier cell pass the inherited carrier on. *)
Lemma load_rows_gap c gap rest m :
  Forall (fun row => row.1 = None) gap →
  ∃ m', load_rows (Some c) (gap ++ rest) m = load_rows (Some c) rest m'.
Proof.
  intros Hgap. revert m. induction Hgap as [|[op gn_cell] gap Hop _ IH]; intros m.
  - by exists m.
  - simpl in Hop. subst op. cbn [app load_rows].
    apply IH.
Qed.

Lemma load_rows_app last pre rest m :
  ∃ last' m', load_rows last (pre ++ rest) m = load_rows last' rest m'.
Proof.
  revert last m. induction pre as [|[op gn_cell] pre IH]; intros last m.
  - by exists last, m.
  - cbn [app load_rows]. apply IH.
Qed.

(** X28: the forward fill, in general: a row with an empty carrier cell,
    the rows between it and the nearest carrier above it having empty
    carrier cells too, files its nets under that carrier. *)
Theorem load_excel_gn_map_inherits (pre : list (cell * cell)) (c : string) (g : cell)
    (gap : list (cell * cell)) (gn : string) (post : list (cell * cell)) (part : string) :
  Forall (fun row => row.1 = None) gap →
  Py.strip c ≠ EmptyString →
  part ∈ splitlines gn → Py.strip part ≠ EmptyString →
  normalize_net (Some (Py.strip part))
    ∈ load_excel_gn_map (pre ++ (Some c, g) :: gap ++ (None, Some gn) :: post)
        !!! Py.strip c.
Proof.
  intros Hgap Hc Hin Hpart. rewrite load_excel_gn_map_fused.
  destruct (load_rows_app None pre ((Some c, g) :: gap ++ (None, Some gn) :: post) ∅)
    as (last & m & ->).
  cbn [load_rows].
  destruct (load_rows_gap c gap ((None, Some gn) :: post) (load_row m (Some c, g)) Hgap)
    as (m' & ->).
  cbn [load_rows]. apply (load_rows_mono (Some c) post _ (Py.strip c)).
  unfold load_row. cbn [isna str_cell].
  destruct (Py.strip c) as [|a s] eqn:Hsc; [done|]. cbn [Py.is_empty].
  apply fold_load_part_adds; [done|]. by destruct (Py.strip part).
Qed.

Lemma load_excel_gn_map_inherits_witness :
  "3.3.3.0/24" ∈ load_excel_gn_map
                   [(Some "CU", Some "9.9.9.0/30"); (Some " CT ", None); (None, None);
                    (None, Some "3.3. 3.0/24"); (Some "CM", None)] !!! "CT".
Proof.
  apply (load_excel_gn_map_inherits
           [(Some "CU", Some "9.9.9.0/30")] " CT " None [(None, None)] "3.3. 3.0/24"
           [(Some "CM", None)] "3.3. 3.0/24").
  - repeat constructor.
  - discriminate.
  - vm_compute. left.
  - discriminate.
Defined.

End Loader.

(** C7: a row that no carrier precedes is not skipped.  The forward fill
    leaves its carrier missing, [str] turns the missing value into the
    text "nan", which passes the [if not op] guard, and the nets of the
    row are filed under the carrier "nan".  Below a carrier the fill works
    as documented, also across a row without a net cell, and a carrier
    cell of blanks is no carrier. *)
Theorem load_excel_gn_map_missing_carrier :
  ffill [None; Some "CT"] = [None; Some "CT"] ∧
  load_excel_gn_map [(None, Some "1.1.1.0/24"); (Some "CT", Some "2.2.2.0/24")]
  = {[ "nan" := {[ "1.1.1.0/24" ]}; "CT" := {[ "2.2.2.0/24" ]} ]} ∧
  load_excel_gn_map [(None, Some "1.1.1.0/24")] = {[ "nan" := {[ "1.1.1.0/24" ]} ]} ∧
  load_excel_gn_map [(Some "CT", Some "1.1.1.0/24"); (None, Some "2.2.2.0/24")]
  = {[ "CT" := {[ "1.1.1.0/24"; "2.2.2.0/24" ]} ]} ∧
  load_excel_gn_map [(Some "CT", None); (None, Some "2.2.2.0/24")]
  = {[ "CT" := {[ "2.2.2.0/24" ]} ]} ∧
  load_excel_gn_map [(Some "  ", Some "1.1.1.0/24")] = ∅.
Proof.
  split; [reflexivity|]. repeat (split; [vm_compute; reflexivity|]).
  vm_compute; reflexivity.
Qed.

(** ** More on the block scanner *)

Section ScannerMore.

Lemma scan_idle_empty lines : in_block (scan lines) = false → current_block (scan lines) = [].
Proof.
  induction lines as [|line pre IH] using rev_ind; [done|].
  rewrite scan_snoc. unfold scan_line.
  destruct (Py.startswith _ _); [done|].
  destruct (in_block (scan pre)) eqn:Hin; [|by rewrite Hin].
  by destruct (String.eqb _ "#").
Qed.

(** The state right after an opening line. *)
Lemma scan_open pre line :
  opens line = true →
  scan (pre ++ [line]) = Scanner (extract_blocks_from_file pre) [line] true.
Proof.
  intros Hopen. rewrite scan_snoc. unfold scan_line, extract_blocks_from_file.
  unfold opens in Hopen. rewrite Hopen. f_equal.
  unfold flush. destruct (in_block (scan pre)) eqn:Hin; simpl.
  - pose proof (scan_live pre Hin) as Hne.
    by destruct (current_block (scan pre)).
  - by rewrite (scan_idle_empty pre Hin).
Qed.

Lemma extract_blocks_from l1 l2 :
  extract_blocks_from_file (l1 ++ l2)
  = blocks (flush (fold_left scan_line l2 (scan l1))).
Proof. unfold extract_blocks_from_file, scan. by rewrite fold_left_app. Qed.

Lemma extract_blocks_app_open pre line post :
  opens line = true →
  extract_blocks_from_file (pre ++ line :: post)
  = (extract_blocks_from_file pre ++ extract_blocks_from_file (line :: post))%list.
Proof.
  intros Hopen.
  pose proof (extract_blocks_from [line] post) as H1.
  change (scan [line]) with (scan ([] ++ [line])) in H1.
  rewrite (scan_open [] line Hopen) in H1.
  change ([line] ++ post)%list with (line :: post) in H1. rewrite H1. clear H1.
  rewrite cons_middle, app_assoc, extract_blocks_from, (scan_open pre line Hopen).
  set (done_ := extract_blocks_from_file pre).
  assert (Scanner done_ [line] true
          = emitted_before done_ (Scanner (extract_blocks_from_file []) [line] true)) as ->.
  { unfold emitted_before. simpl. by rewrite app_nil_r. }
  by rewrite fold_scan_emitted_before, flush_emitted_before.
Qed.

(** Lines met outside a stanza that do not open one leave no trace. *)
Lemma scan_no_open pre :
  Forall (fun l => opens l = false) pre → scan pre = Scanner [] [] false.
Proof.
  induction pre as [|line pre IH] using rev_ind; [done|].
  intros [Hpre Hline]%Forall_app. rewrite Forall_singleton in Hline.
  rewrite scan_snoc. rewrite (IH Hpre).
  unfold scan_line. unfold opens in Hline. cbv beta in Hline. by rewrite Hline.
Qed.

(** The closing line ends the stanza, and is its last line. *)
Lemma scan_close pre line :
  in_block (scan pre) = true → opens line = false → closes line = true →
  scan (pre ++ [line])
  = Scanner (blocks (scan pre) ++ [Py.join (current_block (scan pre) ++ [line])]) [] false.
Proof.
  intros Hin Hopen Hclose. rewrite scan_snoc. unfold scan_line.
  unfold opens in Hopen. unfold closes in Hclose. by rewrite Hopen, Hin, Hclose.
Qed.

Lemma fold_scan_from_idle done_ lines :
  blocks (flush (fold_left scan_line lines (Scanner done_ [] false)))
  = (done_ ++ extract_blocks_from_file lines)%list.
Proof.
  assert (Scanner done_ [] false = emitted_before done_ (Scanner [] [] false)) as ->.
  { unfold emitted_before. simpl. by rewrite app_nil_r. }
  by rewrite fold_scan_emitted_before, flush_emitted_before.
Qed.

(** Counting: emitted blocks plus the pending one are the opening lines
    seen so far. *)
Lemma scan_count lines :
  (length (blocks (scan lines)) + (if in_block (scan lines) then 1 else 0))%nat
  = length (filter (fun l => opens l = true) lines).
Proof.
  induction lines as [|line pre IH] using rev_ind; [done|].
  rewrite filter_app, length_app, <- IH, scan_snoc. clear IH.
  rewrite filter_cons, filter_nil. unfold scan_line, opens.
  pose proof (scan_live pre) as Hlive. unfold live_buffer in Hlive.
  destruct (Py.startswith _ _) eqn:Hopen.
  - rewrite decide_True by done. unfold flush. simpl.
    destruct (in_block (scan pre)) eqn:Hin; simpl; [|lia].
    destruct (current_block (scan pre)); [by destruct Hlive|].
    simpl. rewrite length_app. simpl. lia.
  - rewrite decide_False by congruence. simpl.
    destruct (in_block (scan pre)) eqn:Hin; [|rewrite Hin; lia].
    destruct (String.eqb _ "#"); simpl; [rewrite length_app; simpl|]; lia.
Qed.

Lemma stanza_of_snoc lines line b : stanza_of lines b → stanza_of (lines ++ [line]) b.
Proof.
  intros (pre & first & rest & post & -> & Hopen & Hrest & ->).
  exists pre, first, rest, (post ++ [line])%list. repeat split; try done.
  by rewrite <- !app_assoc, <- app_comm_cons, <- !app_assoc.
Qed.

(** Emitted blocks are stanzas of the input, and so is the pending buffer,
    which reaches up to the last line read. *)
Lemma scan_stanzas lines :
  Forall (stanza_of lines) (blocks (scan lines)) ∧
  (in_block (scan lines) = true →
   ∃ pre first rest,
     lines = (pre ++ first :: rest)%list ∧ opens first = true ∧
     Forall (fun l => opens l = false) rest ∧
     current_block (scan lines) = first :: rest).
Proof.
  induction lines as [|line lines [IHb IHc]] using rev_ind; [by split; [constructor|]|].
  assert (Forall (stanza_of (lines ++ [line])) (blocks (scan lines))) as Hold.
  { eapply Forall_impl; [exact IHb|]. intros b. apply stanza_of_snoc. }
  assert (in_block (scan lines) = true →
          stanza_of lines (Py.join (current_block (scan lines)))) as Hcur.
  { intros (pre & first & rest & -> & Hopen & Hrest & ->)%IHc.
    exists pre, first, rest, []. by rewrite app_nil_r. }
  destruct (opens line) eqn:Hopen.
  - rewrite (scan_open lines line Hopen). simpl. split.
    + unfold extract_blocks_from_file, flush.
      destruct (in_block (scan lines)) eqn:Hin; simpl; [|done].
      destruct (nonempty _); [|done]. simpl.
      apply Forall_app. split; [done|]. constructor; [|done].
      by apply stanza_of_snoc, Hcur.
    + intros _. exists lines, line, []. by repeat split.
  - rewrite scan_snoc. unfold scan_line. unfold opens in Hopen. rewrite Hopen.
    destruct (in_block (scan lines)) eqn:Hin; [|by rewrite Hin].
    destruct (IHc eq_refl) as (pre & first & rest & Hl & Hfirst & Hrest & Hcb).
    assert (Forall (fun l => opens l = false) (rest ++ [line])) as Hrest'.
    { apply Forall_app. split; [done|]. by constructor. }
    destruct (String.eqb _ "#"); simpl.
    + split; [|done]. apply Forall_app. split; [done|]. constructor; [|done].
      rewrite Hcb. exists pre, first, (rest ++ [line])%list, [].
      split; [|done]. rewrite Hl. by rewrite app_nil_r, <- app_assoc.
    + split; [done|]. intros _. exists pre, first, (rest ++ [line])%list.
      split; [|by rewrite Hcb]. rewrite Hl. by rewrite <- app_assoc.
Qed.

End ScannerMore.

(** X1: there are as many blocks as opening lines. *)
Theorem extract_blocks_count (lines : list string) :
  length (extract_blocks_from_file lines)
  = length (filter (fun l => opens l = true) lines).
Proof.
  rewrite <- scan_count. unfold extract_blocks_from_file, flush.
  pose proof (scan_live lines) as Hlive. unfold live_buffer in Hlive.
  destruct (in_block (scan lines)); simpl; [|lia].
  destruct (current_block (scan lines)); [by destruct Hlive|].
  simpl. rewrite length_app. simpl. lia.
Qed.

(** X2: every block is a run of consecutive input lines that starts with
    an opening line and holds no second one. *)
Theorem extract_blocks_are_stanzas (lines : list string) :
  Forall (stanza_of lines) (extract_blocks_from_file lines).
Proof.
  destruct (scan_stanzas lines) as [Hb Hc].
  unfold extract_blocks_from_file, flush.
  destruct (in_block (scan lines)) eqn:Hin; simpl; [|done].
  destruct (nonempty _); [|done]. simpl.
  apply Forall_app. split; [done|]. constructor; [|done].
  destruct (Hc eq_refl) as (pre & first & rest & -> & Hopen & Hrest & ->).
  exists pre, first, rest, []. by rewrite app_nil_r.
Qed.

(** X3: the scan restarts at every opening line: what precedes it and what
    starts there are extracted independently. *)
Theorem extract_blocks_split_at_open (pre : list string) (line : string) (post : list string) :
  opens line = true →
  extract_blocks_from_file (pre ++ line :: post)
  = (extract_blocks_from_file pre ++ extract_blocks_from_file (line :: post))%list.
Proof. apply extract_blocks_app_open. Qed.

Lemma extract_blocks_split_at_open_witness :
  extract_blocks_from_file ["ip address-set internationalgn a"; "x"; "ip address-set internationalgn b"]
  = (extract_blocks_from_file ["ip address-set internationalgn a"; "x"]
     ++ extract_blocks_from_file ["ip address-set internationalgn b"])%list.
Proof.
  apply (extract_blocks_split_at_open ["ip address-set internationalgn a"; "x"]
           "ip address-set internationalgn b" []).
  reflexivity.
Defined.

(** X4: the closing line is the last line of its block, and the lines after
    it are scanned from scratch. *)
Theorem extract_blocks_split_at_close (pre : list string) (line : string) (post : list string) :
  in_block (scan pre) = true → opens line = false → closes line = true →
  extract_blocks_from_file (pre ++ line :: post)
  = (blocks (scan pre) ++ [Py.join (current_block (scan pre) ++ [line])]
     ++ extract_blocks_from_file post)%list.
Proof.
  intros Hin Hopen Hclose.
  rewrite cons_middle, app_assoc, extract_blocks_from.
  rewrite (scan_close pre line Hin Hopen Hclose), fold_scan_from_idle.
  by rewrite <- app_assoc.
Qed.

Lemma extract_blocks_split_at_close_witness :
  extract_blocks_from_file
    ["ip address-set internationalgn a"; " # "; "junk"; "ip address-set internationalgn b"]
  = ["ip address-set internationalgn a # "; "ip address-set internationalgn b"].
Proof.
  apply (extract_blocks_split_at_close ["ip address-set internationalgn a"] " # "
           ["junk"; "ip address-set internationalgn b"]); reflexivity.
Defined.

(** X5: lines that precede the first opening line are ignored. *)
Theorem extract_blocks_skips_preamble (pre rest : list string) :
  Forall (fun l => opens l = false) pre →
  extract_blocks_from_file (pre ++ rest) = extract_blocks_from_file rest.
Proof.
  intros Hpre. by rewrite extract_blocks_from, (scan_no_open pre Hpre).
Qed.

Lemma extract_blocks_skips_preamble_witness :
  extract_blocks_from_file ["sysname FW"; "#"; "ip address-set internationalgn a"]
  = extract_blocks_from_file ["ip address-set internationalgn a"].
Proof.
  apply (extract_blocks_skips_preamble ["sysname FW"; "#"] ["ip address-set internationalgn a"]).
  repeat constructor.
Defined.

(** ** More on the mask converter *)

Section MaskMore.

(** The special case for "0" is what the general path gives anyway: the
    octets are always read off the padded pieces of the stripped wildcard. *)
Lemma wildcard_octets_alt wc :
  wildcard_octets wc = comprehension Py.int (pad4 (Py.split "." (Py.strip wc))).
Proof.
  unfold wildcard_octets.
  destruct (String.eqb_spec (Py.strip wc) "0") as [->|_]; reflexivity.
Qed.

(** A wildcard without surrounding whitespace keeps none when text that
    starts with a dot is appended, up to the whitespace that text ends
    with. *)
Lemma lstrip_by_head_not p s : head_not p s → Py.lstrip_by p s = s.
Proof. destruct s as [|c s]; simpl; [done|]. by intros ->. Qed.

Lemma strip_app_dot wc t :
  Py.strip wc = wc →
  Py.strip (wc ++ String "." t) = (wc ++ String "." (Py.rstrip_by Py.isspace t))%string.
Proof.
  intros Hwc. unfold Py.strip.
  rewrite rstrip_by_app_l by (simpl; by destruct (Py.rstrip_by Py.isspace t)).
  cbn [Py.rstrip_by]. rewrite isspace_dot. cbn [andb].
  apply lstrip_by_head_not.
  pose proof (strip_head wc) as Hhead. rewrite Hwc in Hhead.
  destruct wc as [|c wc]; [done|]. by rewrite append_cons.
Qed.

Lemma split_app_sep sep a b :
  Py.split sep (a ++ String sep b) = (Py.split sep a ++ Py.split sep b)%list.
Proof.
  induction a as [|c a IH]; simpl.
  - by rewrite Ascii.eqb_refl.
  - rewrite IH. destruct (Ascii.eqb c sep); [done|].
    pose proof (split_nonempty sep a) as Hne. by destruct (Py.split sep a).
Qed.

Lemma pad4_app_zero l : pad4 (l ++ ["0"]) = pad4 l.
Proof. by destruct l as [|a [|b [|c [|d l]]]]. Qed.

Lemma pad4_app_ge l l' : (4 ≤ length l)%nat → pad4 (l ++ l') = pad4 l.
Proof.
  intros Hl. unfold pad4. rewrite <- app_assoc. by rewrite !take_app_le by done.
Qed.

Lemma prefixlen_octets_eq wc wc' :
  wildcard_octets wc = wildcard_octets wc' →
  wildcard_to_prefixlen wc = wildcard_to_prefixlen wc'.
Proof. unfold wildcard_to_prefixlen. by intros ->. Qed.

Lemma comprehension_Raise {A B} (f : A → result B) l :
  comprehension f l = Raise ValueError ↔ Exists (fun x => f x = Raise ValueError) l.
Proof.
  induction l as [|x l IH]; simpl.
  - split; [done|]. by intros ?%Exists_nil.
  - rewrite Exists_cons, <- IH. destruct (f x) as [y|[]]; simpl.
    + destruct (comprehension f l) as [ys|[]]; simpl.
      * split; [done|]. by intros [|].
      * split; [by right|done].
    + split; [by left|done].
Qed.

Lemma bit_count8_complement o : 0 ≤ o ≤ 255 → bit_count8 (255 - o) = 8 - bit_count8 o.
Proof.
  intros Ho.
  assert (forallb (fun k => bit_count8 (255 - Z.of_nat k) =? 8 - bit_count8 (Z.of_nat k))
            (seq 0 256) = true) as Hall by (vm_compute; reflexivity).
  rewrite forallb_forall in Hall.
  specialize (Hall (Z.to_nat o)). rewrite Z2Nat.id in Hall by lia.
  apply Z.eqb_eq, Hall, in_seq. lia.
Qed.

End MaskMore.

(** X6: the converter undoes the usual wildcard notation: the wildcard
    mask of a prefix length [n] between 0 and 32 converts back to [n]. *)
Theorem wildcard_to_prefixlen_round_trip (n : Z) :
  0 ≤ n ≤ 32 → wildcard_to_prefixlen (wildcard_of_prefixlen n) = Ok n.
Proof.
  intros Hn.
  assert (forallb (fun k =>
            match wildcard_to_prefixlen (wildcard_of_prefixlen (Z.of_nat k)) with
            | Ok r => r =? Z.of_nat k
            | Raise _ => false
            end) (seq 0 33) = true) as Hall by (vm_compute; reflexivity).
  rewrite forallb_forall in Hall.
  specialize (Hall (Z.to_nat n)). rewrite Z2Nat.id in Hall by lia.
  assert (In (Z.to_nat n) (seq 0 33)) as Hin by (apply in_seq; lia).
  destruct (wildcard_to_prefixlen _) as [r|]; [|by specialize (Hall Hin)].
  f_equal. by apply Z.eqb_eq, Hall.
Qed.

Lemma wildcard_to_prefixlen_round_trip_witness :
  wildcard_of_prefixlen 29 = "0.0.0.7" ∧ wildcard_to_prefixlen "0.0.0.7" = Ok 29.
Proof.
  split; [reflexivity|]. apply (wildcard_to_prefixlen_round_trip 29). lia.
Defined.

(** X7: with byte octets, the prefix length and the number of 1-bits of
    the wildcard add up to 32. *)
Theorem wildcard_to_prefixlen_complement (wc : string) (octets : list Z) :
  wildcard_octets wc = Ok octets →
  Forall (fun o => 0 ≤ o ≤ 255) octets →
  wildcard_to_prefixlen wc = Ok (32 - Py.sum (map bit_count8 octets)).
Proof.
  intros Hoct Hrange.
  destruct (prefixlen_bit_count wc octets Hoct Hrange) as (a & b & c & d & -> & ->).
  repeat match goal with H : Forall _ (_ :: _) |- _ => inversion H; clear H; subst end.
  rewrite !bit_count8_complement by lia. f_equal. unfold Py.sum. simpl. lia.
Qed.

Lemma wildcard_to_prefixlen_complement_witness :
  wildcard_to_prefixlen "0.0.1.255" = Ok (32 - Py.sum (map bit_count8 [0; 0; 1; 255])).
Proof.
  apply (wildcard_to_prefixlen_complement "0.0.1.255" [0; 0; 1; 255]).
  - reflexivity.
  - repeat first [apply Forall_cons_2 | apply Forall_nil_2]; lia.
Defined.

(** X8: on a wildcard without surrounding whitespace (the [\S+] group of
    [LINE_PATTERN] never has any), missing octets count as 0, and whatever
    follows the fourth octet is not looked at. *)
Theorem wildcard_to_prefixlen_padding :
  (∀ wc, Py.strip wc = wc →
         wildcard_to_prefixlen (wc ++ ".0") = wildcard_to_prefixlen wc) ∧
  (∀ wc junk,
     Py.strip wc = wc →
     (4 ≤ length (Py.split "." wc))%nat →
     wildcard_to_prefixlen (wc ++ "." ++ junk) = wildcard_to_prefixlen wc).
Proof.
  split.
  - intros wc Hwc. apply prefixlen_octets_eq. rewrite !wildcard_octets_alt.
    rewrite (strip_app_dot wc "0" Hwc), Hwc.
    change (Py.rstrip_by Py.isspace "0") with "0".
    by rewrite (split_app_sep "." wc "0"), pad4_app_zero.
  - intros wc junk Hwc Hlen. apply prefixlen_octets_eq. rewrite !wildcard_octets_alt.
    change (wc ++ "." ++ junk)%string with (wc ++ String "." junk)%string.
    rewrite (strip_app_dot wc junk Hwc), Hwc.
    by rewrite (split_app_sep "." wc _), pad4_app_ge.
Qed.

Lemma wildcard_to_prefixlen_padding_witness :
  wildcard_to_prefixlen "0.0.0.7.not-a-number" = wildcard_to_prefixlen "0.0.0.7".
Proof.
  destruct wildcard_to_prefixlen_padding as [_ H].
  apply (H "0.0.0.7" "not-a-number"); [reflexivity|]. simpl. lia.
Defined.

(** X9: the converter raises exactly when one of the four pieces it looks
    at, those of the stripped wildcard padded with "0", is not an integer
    literal; the error is then [ValueError], and the special case for "0"
    plays no part. *)
Theorem wildcard_to_prefixlen_raises (wc : string) :
  wildcard_to_prefixlen wc = Raise ValueError
  ↔ Exists (fun p => Py.int p = Raise ValueError) (pad4 (Py.split "." (Py.strip wc))).
Proof.
  rewrite <- comprehension_Raise, <- wildcard_octets_alt.
  unfold wildcard_to_prefixlen. by destruct (wildcard_octets wc) as [octets|[]].
Qed.

(** ** The matcher finds only what the pattern describes *)

Section MatcherSound.
Context {A : Type}.

Lemma append_nil_r (s : string) : (s ++ "")%string = s.
Proof. induction s as [|c s IH]; [done|]. by rewrite append_cons, IH. Qed.

Lemma append_assoc (a b c : string) : ((a ++ b) ++ c)%string = (a ++ b ++ c)%string.
Proof. induction a as [|x a IH]; [done|]. by rewrite !append_cons, IH. Qed.

Lemma length_append (a b : string) :
  String.length (a ++ b) = (String.length a + String.length b)%nat.
Proof. induction a as [|x a IH]; [done|]. rewrite append_cons. simpl. by rewrite IH. Qed.

Lemma substring_prefix (w rest : string) :
  substring 0 (String.length w) (w ++ rest) = w.
Proof.
  induction w as [|c w IH]; [by destruct rest|].
  rewrite append_cons. simpl. by rewrite IH.
Qed.

Lemma drop_prefix_Some t s s' : Re.drop_prefix t s = Some s' → s = (t ++ s')%string.
Proof.
  revert s. induction t as [|b t IH]; intros [|a s]; simpl; try done.
  - intros [= <-]. reflexivity.
  - intros [= <-]. reflexivity.
  - destruct (Ascii.eqb_spec a b) as [->|]; [|done]. intros ->%IH. reflexivity.
Qed.

Lemma star_sound p s pos (k : string → nat → option A) res :
  Re.star p s pos k = Some res →
  ∃ w rest, s = (w ++ rest)%string ∧ all_chars p w = true ∧
            k rest (pos + String.length w)%nat = Some res.
Proof.
  revert pos. induction s as [|c s IH]; intros pos; simpl.
  - intros Hk. exists "", "". by rewrite Nat.add_0_r.
  - assert (k (String c s) pos = Some res →
            ∃ w rest, String c s = (w ++ rest)%string ∧ all_chars p w = true ∧
                      k rest (pos + String.length w)%nat = Some res) as Hstop.
    { intros Hk. exists "", (String c s). by rewrite Nat.add_0_r. }
    destruct (p c) eqn:Hc; [|done].
    destruct (Re.star p s (S pos) k) as [m|] eqn:Hs; [|done].
    intros [= ->]. destruct (IH _ Hs) as (w & rest & -> & Hw & Hk).
    exists (String c w), rest. split; [reflexivity|].
    split; [simpl; by rewrite Hc, Hw|]. simpl. by rewrite Nat.add_succ_r.
Qed.

Lemma exec_sound r s pos g (k : string → nat → Re.groups → option A) res :
  Re.exec r s pos g k = Some res →
  ∃ w rest g',
    s = (w ++ rest)%string ∧ re_sem r pos w rest g g' ∧
    k rest (pos + String.length w)%nat g' = Some res.
Proof.
  revert s pos g k. induction r as [| | |p|t|p|p|r1 IH1 r2 IH2|name r IH];
    intros s pos g k; simpl.
  - intros Hk. exists "", s, g. by rewrite Nat.add_0_r.
  - destruct pos; [|done]. intros Hk. by exists "", s, g.
  - destruct (Re.at_end s) eqn:He; [|done]. intros Hk.
    exists "", s, g. by rewrite Nat.add_0_r.
  - destruct s as [|c s]; [done|]. destruct (p c) eqn:Hc; [|done]. intros Hk.
    exists (String c ""), s, g. split; [reflexivity|].
    split; [split; [by exists c|done]|]. simpl. by rewrite Nat.add_1_r.
  - destruct (Re.drop_prefix t s) as [s'|] eqn:Hd; [|done]. intros Hk.
    apply drop_prefix_Some in Hd as ->. by exists t, s', g.
  - intros (w & rest & -> & Hw & Hk)%star_sound. by exists w, rest, g.
  - destruct s as [|c s]; [done|]. destruct (p c) eqn:Hc; [|done].
    intros (w & rest & -> & Hw & Hk)%star_sound.
    exists (String c w), rest, g. split; [reflexivity|].
    split; [split; [done|]; split; [|done]; simpl; by rewrite Hc, Hw|].
    simpl. by rewrite Nat.add_succ_r.
  - intros (w1 & rest1 & g1 & -> & H1 & Hk1)%IH1.
    apply IH2 in Hk1 as (w2 & rest & g' & -> & H2 & Hk).
    exists (w1 ++ w2)%string, rest, g'.
    split; [by rewrite append_assoc|]. split; [by exists w1, w2, g1|].
    by rewrite length_append, Nat.add_assoc.
  - intros (w & rest & g1 & -> & Hr & Hk)%IH.
    replace (pos + String.length w - pos)%nat with (String.length w) in Hk by lia.
    rewrite substring_prefix in Hk. exists w, rest, ((name, w) :: g1).
    split; [done|]. split; [by exists g1|done].
Qed.

End MatcherSound.

Lemma match_sound r s m :
  Re.match_ r s = Some m →
  ∃ w rest, s = (w ++ rest)%string ∧ re_sem r 0 w rest [] m.
Proof.
  unfold Re.match_. intros (w & rest & g' & -> & Hsem & [= <-])%exec_sound. by eauto.
Qed.

(** ** The shape of a rewritten line *)

Lemma at_end_cases rest : Re.at_end rest = true → rest = EmptyString ∨ rest = nl.
Proof.
  destruct rest as [|c [|c' rest]]; simpl; [by left| |done].
  intros ->%Ascii.eqb_eq. by right.
Qed.

(** A successful match splits the subject into the four captured parts
    and the two gaps around the keyword. *)
Lemma line_pattern_sound s m :
  Re.match_ LINE_PATTERN s = Some m →
  ∃ body rest,
    s = (body ++ rest)%string ∧ Re.at_end rest = true ∧
    address_line body (Re.group m "prefix") (Re.group m "ip")
                      (Re.group m "wc") (Re.group m "suffix").
Proof.
  intros (w & rest & -> & Hsem)%match_sound.
  unfold LINE_PATTERN, Re.cat in Hsem. cbn [fold_right re_sem] in Hsem.
  destruct Hsem as (? & ? & ? & -> & (-> & _ & ->) & Hsem).
  destruct Hsem as (prefix & ? & ? & -> & (? & Hprefix & ->) & Hsem).
  destruct Hsem as (ip & ? & ? & -> & (? & Hip & ->) & Hsem).
  destruct Hsem as (gap1 & ? & ? & -> & (Hgap1n & Hgap1 & ->) & Hsem).
  destruct Hsem as (? & ? & ? & -> & (-> & ->) & Hsem).
  destruct Hsem as (gap2 & ? & ? & -> & (Hgap2n & Hgap2 & ->) & Hsem).
  destruct Hsem as (wc & ? & ? & -> & (? & (Hwcn & Hwc & ->) & ->) & Hsem).
  destruct Hsem as (suffix & ? & ? & -> & (? & (Hsuffix & ->) & ->) & Hsem).
  destruct Hsem as (? & ? & ? & -> & (-> & Hend & ->) & (-> & ->)).
  destruct Hprefix as
    (ws0 & ? & ? & -> & (Hws0 & ->) & (? & ? & ? & -> & (-> & ->) &
     (ws1 & ? & ? & -> & (Hws1n & Hws1 & ->) & (d & ? & ? & -> & (Hdn & Hd & ->) &
      (ws2 & ? & ? & -> & (Hws2n & Hws2 & ->) & (-> & ->)))))).
  destruct Hip as
    (d1 & ? & ? & -> & (Hd1n & Hd1 & ->) & (? & ? & ? & -> & (-> & ->) &
     (d2 & ? & ? & -> & (Hd2n & Hd2 & ->) & (? & ? & ? & -> & (-> & ->) &
      (d3 & ? & ? & -> & (Hd3n & Hd3 & ->) & (? & ? & ? & -> & (-> & ->) &
       (d4 & ? & ? & -> & (Hd4n & Hd4 & ->) & (-> & ->)))))))).
  rewrite !append_nil_r. cbn [Re.group String.eqb Ascii.eqb Bool.eqb].
  eexists _, rest. split; [reflexivity|]. split; [exact Hend|].
  exists gap1, gap2. split; [reflexivity|].
  split; [by exists ws0, ws1, d, ws2|]. split; [by exists d1, d2, d3, d4|]. done.
Qed.

(** Stripping on the right takes away a run of stripped characters, and
    what it leaves does not end with one. *)
Lemma rstrip_by_app p s :
  ∃ tail, s = (Py.rstrip_by p s ++ tail)%string ∧ all_chars p tail = true.
Proof.
  induction s as [|c s (tail & IH & Htail)]; [by exists EmptyString|].
  simpl. destruct (p c && Py.is_empty (Py.rstrip_by p s)) eqn:Hc.
  - apply andb_prop in Hc as [Hc He]. destruct (Py.rstrip_by p s); [|done].
    exists (String c tail). split; [by rewrite IH at 1|]. simpl. by rewrite Hc.
  - exists tail. split; [|done]. by rewrite append_cons, <- IH.
Qed.

Lemma rstrip_by_last p s a c :
  Py.rstrip_by p s = (a ++ String c EmptyString)%string → p c = false.
Proof.
  revert a. induction s as [|x s IH]; intros a; simpl; [by destruct a|].
  destruct (p x && Py.is_empty (Py.rstrip_by p s)) eqn:Hc; [by destruct a|].
  destruct a as [|y a].
  - intros [= -> Hr]. rewrite Hr in Hc. simpl in Hc. by rewrite andb_true_r in Hc.
  - rewrite append_cons. intros [= -> Hr]. by apply (IH a).
Qed.

Lemma match_address_line line m :
  Re.match_ LINE_PATTERN (Py.rstrip_by (Ascii.eqb Re.LF) line) = Some m →
  address_line (Py.rstrip_by (Ascii.eqb Re.LF) line)
    (Re.group m "prefix") (Re.group m "ip") (Re.group m "wc") (Re.group m "suffix").
Proof.
  intros (body & rest & Hs & [->| ->]%at_end_cases & Hline)%line_pattern_sound.
  - by rewrite Hs, append_nil_r.
  - apply rstrip_by_last in Hs. by rewrite Ascii.eqb_refl in Hs.
Qed.

Lemma convert_line_shape_or_same line out :
  convert_line line = Ok out →
  out = line ∨
  ∃ prefix ip wc suffix n,
    address_line (Py.rstrip_by (Ascii.eqb Re.LF) line) prefix ip wc suffix ∧
    wildcard_to_prefixlen wc = Ok n ∧
    out = (prefix ++ ip ++ "/" ++ Py.str_int n ++ suffix ++ nl)%string.
Proof.
  unfold convert_line.
  destruct (Re.match_ _ _) as [m|] eqn:Hm; [|intros [= <-]; by left].
  destruct (wildcard_to_prefixlen _) as [n|] eqn:Hn; simpl; [|done].
  intros [= <-]. right.
  exists (Re.group m "prefix"), (Re.group m "ip"), (Re.group m "wc"), (Re.group m "suffix"), n.
  split; [by apply match_address_line|done].
Qed.

(** X10: a rewritten line is the original with the gap, the keyword and the
    wildcard replaced by a slash and the prefix length, and nothing else
    changed: whatever [convert_line] returns is either its argument or
    built that way from the parts of an address line. *)
Theorem convert_line_shape (line out : string) :
  convert_line line = Ok out →
  out = line ∨
  ∃ prefix ip wc suffix n,
    address_line (Py.rstrip_by (Ascii.eqb Re.LF) line) prefix ip wc suffix ∧
    wildcard_to_prefixlen wc = Ok n ∧
    out = (prefix ++ ip ++ "/" ++ Py.str_int n ++ suffix ++ nl)%string.
Proof. apply convert_line_shape_or_same. Qed.

Lemma convert_line_shape_witness :
  ("address 7 10.0.0.0/24" ++ nl)%string = ("address 7 10.0.0.0 wildcard 0.0.0.255" ++ nl)%string ∨
  ∃ prefix ip wc suffix n,
    address_line (Py.rstrip_by (Ascii.eqb Re.LF) ("address 7 10.0.0.0 wildcard 0.0.0.255" ++ nl))
      prefix ip wc suffix ∧
    wildcard_to_prefixlen wc = Ok n ∧
    ("address 7 10.0.0.0/24" ++ nl)%string
    = (prefix ++ ip ++ "/" ++ Py.str_int n ++ suffix ++ nl)%string.
Proof.
  apply (convert_line_shape ("address 7 10.0.0.0 wildcard 0.0.0.255" ++ nl)
           ("address 7 10.0.0.0/24" ++ nl)).
  vm_compute. reflexivity.
Defined.

(** X11: a line in which the word "wildcard" does not occur comes back
    unchanged, line end included. *)
Theorem convert_line_needs_keyword (line : string) :
  (∀ a b, line ≠ (a ++ "wildcard" ++ b)%string) →
  convert_line line = Ok line.
Proof.
  intros Hnot. unfold convert_line.
  destruct (Re.match_ _ _) as [m|] eqn:Hm; [|done]. exfalso.
  apply match_address_line in Hm as (gap1 & gap2 & Hbody & _).
  destruct (rstrip_by_app (Ascii.eqb Re.LF) line) as (tail & Hline & _).
  rewrite Hbody in Hline.
  apply (Hnot (Re.group m "prefix" ++ Re.group m "ip" ++ gap1)%string
              (gap2 ++ Re.group m "wc" ++ Re.group m "suffix" ++ tail)%string).
  rewrite Hline at 1. by rewrite !append_assoc.
Qed.

Lemma convert_line_needs_keyword_witness :
  convert_line "#" = Ok "#".
Proof.
  apply (convert_line_needs_keyword "#").
  intros [|c [|c' a]] b; discriminate.
Defined.

(** ** Rewriting twice *)

Section Idempotence.

Lemma all_chars_app p a b :
  all_chars p (a ++ b) = all_chars p a && all_chars p b.
Proof.
  induction a as [|c a IH]; [done|]. rewrite append_cons. simpl.
  by rewrite IH, andb_assoc.
Qed.

(** Greedy repetition has one outcome: a run of [p]-characters followed
    by something that does not start with one can be cut in one way only. *)
Lemma span_unique p a b a' b' :
  all_chars p a = true → all_chars p a' = true →
  head_not p b → head_not p b' →
  (a ++ b)%string = (a' ++ b')%string → a = a' ∧ b = b'.
Proof.
  revert a'. induction a as [|x a IH]; intros [|y a'] Ha Ha' Hb Hb' Heq.
  - by split.
  - change (b = String y (a' ++ b')) in Heq. subst b. simpl in Hb, Ha'.
    apply andb_prop in Ha' as [Hy _]. congruence.
  - change (String x (a ++ b) = b') in Heq. subst b'. simpl in Hb', Ha.
    apply andb_prop in Ha as [Hx _]. congruence.
  - change (String x (a ++ b) = String y (a' ++ b')) in Heq.
    injection Heq as -> Heq. simpl in Ha, Ha'.
    apply andb_prop in Ha as [_ Ha]. apply andb_prop in Ha' as [_ Ha'].
    by destruct (IH a' Ha Ha' Hb Hb' Heq) as [-> ->].
Qed.

Lemma head_not_app p q y rest :
  (∀ c, q c = true → p c = false) →
  y ≠ EmptyString → all_chars q y = true → head_not p (y ++ rest).
Proof.
  intros Hpq Hy Hq. destruct y as [|c y]; [done|]. rewrite append_cons. simpl in *.
  apply andb_prop in Hq as [Hc _]. by apply Hpq.
Qed.

Lemma digit_not_space c : Re.digit c = true → Re.space c = false.
Proof. by destruct c as [[] [] [] [] [] [] [] []]. Qed.

Lemma space_not_digit c : Re.space c = true → Re.digit c = false.
Proof. by destruct c as [[] [] [] [] [] [] [] []]. Qed.

Lemma rstrip_by_all p v : all_chars p v = true → Py.rstrip_by p v = EmptyString.
Proof.
  induction v as [|c v IH]; [done|]. simpl. intros [Hc Hv]%andb_prop.
  by rewrite (IH Hv), Hc.
Qed.

Lemma rstrip_by_keep p q u v :
  (∀ c, q c = true → p c = false) →
  all_chars q u = true → all_chars p v = true →
  Py.rstrip_by p (u ++ v) = u.
Proof.
  intros Hqp Hu Hv. induction u as [|c u IH]; [by apply rstrip_by_all|].
  rewrite append_cons. simpl in *. apply andb_prop in Hu as [Hc Hu].
  by rewrite (Hqp c Hc), (IH Hu).
Qed.

Lemma dot_not_lf c : Re.dot c = true → Ascii.eqb Re.LF c = false.
Proof. unfold Re.dot. rewrite Ascii.eqb_sym. by intros ->%negb_true_iff. Qed.

Lemma string_of_uint_dot u : all_chars Re.dot (NilEmpty.string_of_uint u) = true.
Proof. induction u; simpl; by rewrite ?IHu. Qed.

Lemma str_int_dot n : all_chars Re.dot (Py.str_int n) = true.
Proof.
  unfold Py.str_int, NilZero.string_of_int, NilZero.string_of_uint.
  destruct (Z.to_int n) as [u|u]; destruct u; try done;
    simpl; by rewrite string_of_uint_dot.
Qed.

(** The body of a rewritten line is what is left of it once its line feed
    is stripped. *)
Lemma rstrip_converted prefix ip n suffix :
  all_chars Re.dot suffix = true →
  Py.rstrip_by (Ascii.eqb Re.LF)
    (prefix ++ ip ++ "/" ++ Py.str_int n ++ suffix ++ nl)
  = (prefix ++ ip ++ "/" ++ Py.str_int n ++ suffix)%string.
Proof.
  intros Hsuffix.
  assert (Py.rstrip_by (Ascii.eqb Re.LF) (Py.str_int n ++ suffix ++ nl)
          = (Py.str_int n ++ suffix)%string) as Hkeep.
  { rewrite <- append_assoc. apply (rstrip_by_keep _ Re.dot); [apply dot_not_lf| |done].
    by rewrite all_chars_app, str_int_dot, Hsuffix. }
  rewrite <- (append_assoc prefix ip). rewrite rstrip_by_app_l.
  - change ("/" ++ Py.str_int n ++ suffix ++ nl)%string
      with (String "/" (Py.str_int n ++ suffix ++ nl)).
    cbn [Py.rstrip_by]. rewrite Hkeep. by rewrite append_assoc.
  - change ("/" ++ Py.str_int n ++ suffix ++ nl)%string
      with (String "/" (Py.str_int n ++ suffix ++ nl)).
    cbn [Py.rstrip_by]. by rewrite Hkeep.
Qed.

(** Cut a run of [p]-characters off both sides of the equation [H]. *)
Ltac head_not_tac :=
  first [ done
        | by apply (head_not_app _ Re.digit); [apply digit_not_space|..]
        | by apply (head_not_app _ Re.space); [apply space_not_digit|..] ].
Ltac munch p H :=
  apply (span_unique p) in H as [_ H]; [|done|done|head_not_tac|head_not_tac].

(** After an address prefix and a dotted quad, a slash rules the pattern
    out: it wants a blank there. *)
Lemma converted_no_match prefix ip x :
  address_prefix prefix → dotted_quad ip →
  Re.match_ LINE_PATTERN (prefix ++ ip ++ "/" ++ x) = None.
Proof.
  intros (ws0 & ws1 & d & ws2 & -> & Hws0 & [Hws1n Hws1] & [Hdn Hd] & [Hws2n Hws2])
         (d1 & d2 & d3 & d4 & -> & [Hd1n Hd1] & [Hd2n Hd2] & [Hd3n Hd3] & [Hd4n Hd4]).
  destruct (Re.match_ _ _) as [m|] eqn:Hm; [exfalso|done].
  apply line_pattern_sound in Hm as (body & rest & Heq & _ & Hline).
  revert Hline.
  generalize (Re.group m "prefix"), (Re.group m "ip"), (Re.group m "wc"), (Re.group m "suffix").
  intros prefix' ip' wc' suffix' Hline.
  destruct Hline as (gap1 & gap2 & -> & Hprefix' & Hip' & [Hgap1n Hgap1] & _).
  destruct Hprefix' as
    (ws0' & ws1' & d' & ws2' & -> & Hws0' & [Hws1n' Hws1'] & [Hdn' Hd'] & [Hws2n' Hws2']).
  destruct Hip' as
    (d1' & d2' & d3' & d4' & -> & [Hd1n' Hd1'] & [Hd2n' Hd2'] & [Hd3n' Hd3'] & [Hd4n' Hd4']).
  rewrite !append_assoc in Heq.
  munch Re.space Heq. apply (inj (String.app "address")) in Heq.
  munch Re.space Heq. munch Re.digit Heq. munch Re.space Heq.
  munch Re.digit Heq. apply (inj (String.app ".")) in Heq.
  munch Re.digit Heq. apply (inj (String.app ".")) in Heq.
  munch Re.digit Heq. apply (inj (String.app ".")) in Heq.
  munch Re.digit Heq.
  destruct gap1 as [|c gap1]; [done|].
  change (String "/" x = String c (gap1 ++ "wildcard" ++ gap2 ++ wc' ++ suffix' ++ rest))
    in Heq.
  injection Heq as <- _. done.
Qed.

End Idempotence.

(** X12: rewriting is idempotent: a line that [convert_line] returned is
    returned unchanged when it is rewritten again. *)
Theorem convert_line_idempotent (line out : string) :
  convert_line line = Ok out → convert_line out = Ok out.
Proof.
  intros Hout. destruct (convert_line_shape_or_same line out Hout) as [->|Hshape]; [done|].
  destruct Hshape as (prefix & ip & wc & suffix & n & Hline & _ & ->).
  destruct Hline as (gap1 & gap2 & _ & Hprefix & Hip & _ & _ & _ & Hsuffix).
  unfold convert_line.
  by rewrite (rstrip_converted _ _ _ _ Hsuffix), (converted_no_match _ _ _ Hprefix Hip).
Qed.

Lemma convert_line_idempotent_witness :
  convert_line ("  address 10 1.2.3.4/29 description ABC" ++ nl)
  = Ok ("  address 10 1.2.3.4/29 description ABC" ++ nl)%string.
Proof.
  apply (convert_line_idempotent
           ("  address 10 1.2.3.4 wildcard 0.0.0.7 description ABC" ++ nl)).
  vm_compute. reflexivity.
Defined.

(** ** More on the reconcilers *)

Section ReconcileMore.
Implicit Types (excel_map txt_map : gmap string (gset string)).
Implicit Types (op net : string) (nets : gset string).

Lemma covered_iff excel_map op net excel_nets :
  excel_map !! op = Some excel_nets →
  covered excel_map op net
  ↔ normalize_net (Some net)
      ∈ (set_map (fun n => normalize_net (Some n)) excel_nets : gset string).
Proof.
  intros Hop. rewrite elem_of_map. unfold covered. rewrite Hop. split.
  - intros (rn & n & [= <-] & Hn & Heq). by exists n.
  - intros (n & Heq & Hn). by exists excel_nets, n.
Qed.

Lemma reported_iff excel_map txt_map op net :
  reported (compare_and_output excel_map txt_map) op net
  ↔ (∃ nets, txt_map !! op = Some nets ∧ net ∈ nets) ∧ ¬ covered excel_map op net.
Proof.
  unfold reported. split.
  - intros (l & [Hl|Hl] & Hnet).
    + apply diff_exist_Some in Hl as (nets & excel_nets & Htxt & Hexcel & -> & _).
      apply elem_of_sorted, elem_of_collect_diff in Hnet as [Hnot Hnet].
      split; [by exists nets|]. by rewrite (covered_iff _ _ _ _ Hexcel).
    + apply diff_not_exist_Some in Hl as (nets & Htxt & Hexcel & ->).
      apply elem_of_sorted, elem_of_elements in Hnet.
      split; [by exists nets|]. intros (rn & n & Hrn & _). congruence.
  - intros [(nets & Htxt & Hnet) Hnot].
    destruct (excel_map !! op) as [excel_nets|] eqn:Hexcel.
    + rewrite (covered_iff _ _ _ _ Hexcel) in Hnot.
      assert (net ∈ collect_diff (set_map (fun n => normalize_net (Some n)) excel_nets) nets)
        as Hin by by apply elem_of_collect_diff.
      exists (sorted (collect_diff (set_map (fun n => normalize_net (Some n)) excel_nets) nets)).
      split; [|by apply elem_of_sorted].
      left. report_lookup. rewrite Htxt, Hexcel. cbn [mbind option_bind].
      by destruct (collect_diff _ _); [apply not_elem_of_nil in Hin|].
    + exists (sorted (elements nets)).
      split; [|by apply elem_of_sorted, elem_of_elements].
      right. report_lookup. by rewrite Htxt, Hexcel.
Qed.

Lemma NoDup_sorted l : NoDup l → NoDup (sorted l).
Proof. unfold sorted. by rewrite merge_sort_Permutation. Qed.

Lemma NoDup_collect_diff (known : gset string) nets : NoDup (collect_diff known nets).
Proof. rewrite collect_diff_filter. apply NoDup_filter, NoDup_elements. Qed.

Lemma report_eta (r : report) : r = Report (diff_exist r) (diff_not_exist r).
Proof. by destruct r. Qed.

End ReconcileMore.

(** X13: the report is exact.  A net is listed under a carrier, in one
    section or the other, if and only if the inventory has it for that
    carrier and the register has no net of that carrier with the same
    normal form. *)
Theorem report_exact (excel_map txt_map : gmap string (gset string)) (op net : string) :
  reported (compare_and_output excel_map txt_map) op net
  ↔ (∃ nets, txt_map !! op = Some nets ∧ net ∈ nets) ∧ ¬ covered excel_map op net.
Proof. apply reported_iff. Qed.

(** X14: no list of the report names a net twice, and a carrier the
    register knows is never listed with an empty list. *)
Theorem report_lists_nodup (excel_map txt_map : gmap string (gset string)) :
  (∀ op l, diff_exist (compare_and_output excel_map txt_map) !! op = Some l →
           l ≠ [] ∧ NoDup l) ∧
  (∀ op l, diff_not_exist (compare_and_output excel_map txt_map) !! op = Some l →
           NoDup l).
Proof.
  split.
  - intros op l (nets & excel_nets & _ & _ & -> & Hne)%diff_exist_Some.
    split; [done|]. apply NoDup_sorted, NoDup_collect_diff.
  - intros op l (nets & _ & _ & ->)%diff_not_exist_Some.
    apply NoDup_sorted, NoDup_elements.
Qed.

(** X15: the report is empty exactly when the register knows every
    inventory carrier and covers every one of its nets. *)
Theorem report_empty_iff (excel_map txt_map : gmap string (gset string)) :
  compare_and_output excel_map txt_map = Report ∅ ∅
  ↔ ∀ op nets,
      txt_map !! op = Some nets →
      is_Some (excel_map !! op) ∧ ∀ net, net ∈ nets → covered excel_map op net.
Proof.
  split.
  - intros Hr op nets Htxt.
    pose proof (compare_and_output_lookup excel_map txt_map op) as [H1 H2].
    rewrite Hr in H1, H2. cbn [diff_exist diff_not_exist] in H1, H2.
    rewrite lookup_empty, Htxt in H1, H2.
    destruct (excel_map !! op) as [excel_nets|] eqn:Hexcel; [|done].
    split; [done|]. intros net Hnet. rewrite (covered_iff _ _ _ _ Hexcel).
    destruct (decide (normalize_net (Some net)
                ∈ (set_map (fun n => normalize_net (Some n)) excel_nets : gset string)))
      as [|Hnot]; [done|].
    assert (net ∈ collect_diff (set_map (fun n => normalize_net (Some n)) excel_nets) nets)
      as Hin by by apply elem_of_collect_diff.
    cbn [mbind option_bind] in H1.
    destruct (collect_diff _ _); [by apply not_elem_of_nil in Hin|done].
  - intros Hall. rewrite (report_eta (compare_and_output excel_map txt_map)).
    f_equal; apply map_eq; intros op; rewrite lookup_empty; report_lookup;
      destruct (txt_map !! op) as [nets|] eqn:Htxt; try done;
      destruct (Hall op nets Htxt) as [[excel_nets Hexcel] Hcov]; rewrite Hexcel; [|done].
    cbn [mbind option_bind].
    destruct (collect_diff _ _) as [|net l] eqn:Hd; [done|]. exfalso.
    assert (net ∈ net :: l) as Hin by left.
    rewrite <- Hd in Hin. apply elem_of_collect_diff in Hin as [Hnot Hin].
    apply Hnot. by rewrite <- (covered_iff _ _ _ _ Hexcel); apply Hcov.
Qed.

(** X16: a larger register never adds to the report: whatever is listed
    against a register that has more is listed against one that has less. *)
Theorem report_antitone (excel_map excel_map' txt_map : gmap string (gset string))
    (op net : string) :
  (∀ op' excel_nets,
     excel_map !! op' = Some excel_nets →
     ∃ excel_nets', excel_map' !! op' = Some excel_nets' ∧ excel_nets ⊆ excel_nets') →
  reported (compare_and_output excel_map' txt_map) op net →
  reported (compare_and_output excel_map txt_map) op net.
Proof.
  intros Hsub. rewrite !reported_iff. intros [Htxt Hnot]. split; [done|].
  intros (excel_nets & n & Hexcel & Hn & Heq). apply Hnot.
  destruct (Hsub op excel_nets Hexcel) as (excel_nets' & Hexcel' & Hincl).
  exists excel_nets', n. split; [done|]. split; [by apply Hincl|done].
Qed.

Lemma report_antitone_witness :
  reported (compare_and_output ∅ {[ "CT" := {[ "5.6.7.0/28" ]} ]}) "CT" "5.6.7.0/28".
Proof.
  apply (report_antitone ∅ {[ "CT" := {[ "1.2.3.0/24" ]} ]}
           {[ "CT" := {[ "5.6.7.0/28" ]} ]} "CT" "5.6.7.0/28").
  - intros op' excel_nets Hop'. by rewrite lookup_empty in Hop'.
  - exists ["5.6.7.0/28"]. split; [left; vm_compute; reflexivity|by left].
Defined.

(** X17: the one-bucket diff of [2.文本表格比较.py] lists a net under a carrier
    if and only if the inventory has it there and its normal form is not,
    as it stands, among the nets the register stores for that carrier;
    its lists are sorted and never empty. *)
Theorem main_exact (excel_map txt_map : gmap string (gset string)) (op : string) :
  (∀ net,
     (∃ l, TableCompare.main excel_map txt_map !! op = Some l ∧ net ∈ l)
     ↔ ∃ nets, txt_map !! op = Some nets ∧ net ∈ nets ∧
               normalize_net (Some net) ∉ default ∅ (excel_map !! op)) ∧
  (∀ l, TableCompare.main excel_map txt_map !! op = Some l →
        l ≠ [] ∧ Sorted String.le l ∧ NoDup l).
Proof.
  rewrite main_lookup. destruct (txt_map !! op) as [nets|] eqn:Htxt; cbn [mbind option_bind].
  2:{ split; [|done]. intros net. split; [by intros (l & [=] & _)|by intros (? & [=] & _)]. }
  destruct (collect_diff _ _) as [|x d] eqn:Hd; cbn [nonempty].
  - split; [|done]. intros net. split; [by intros (l & [=] & _)|].
    intros (nets' & [= <-] & Hnet & Hnot).
    assert (net ∈ collect_diff (default ∅ (excel_map !! op)) nets) as Hin
      by by apply elem_of_collect_diff.
    rewrite Hd in Hin. by apply not_elem_of_nil in Hin.
  - rewrite <- Hd. split.
    + intros net. split.
      * intros (l & [= <-] & Hnet%elem_of_sorted%elem_of_collect_diff).
        exists nets. by destruct Hnet.
      * intros (nets' & [= <-] & Hnet & Hnot). eexists. split; [done|].
        by apply elem_of_sorted, elem_of_collect_diff.
    + intros l [= <-]. split; [|split; [apply Sorted_sorted|apply NoDup_sorted, NoDup_collect_diff]].
      intros Hnil. assert (x ∈ sorted (collect_diff (default ∅ (excel_map !! op)) nets)) as Hin
        by (rewrite Hd; apply elem_of_sorted; left).
      rewrite Hnil in Hin. by apply not_elem_of_nil in Hin.
Qed.

(** ** More on the register loader *)

Section LoaderMore.
Implicit Types (m : gmap string (gset string)) (rows : list (cell * cell)).

Lemma strip_idemp s : Py.strip (Py.strip s) = Py.strip s.
Proof.
  unfold Py.strip.
  by rewrite rstrip_lstrip_comm, rstrip_by_idemp, lstrip_by_idemp.
Qed.

Lemma is_empty_false s : Py.is_empty s = false ↔ s ≠ EmptyString.
Proof. by destruct s. Qed.

Lemma add_net_elem m op net k n :
  n ∈ add_net m op net !!! k ↔ n ∈ m !!! k ∨ (k = op ∧ n = net).
Proof.
  unfold add_net. destruct (decide (op = k)) as [->|Hne].
  - rewrite lookup_total_insert_eq. set_solver.
  - rewrite lookup_total_insert_ne by done. naive_solver.
Qed.

Lemma load_part_elem op m part k n :
  n ∈ load_part op m part !!! k
  ↔ n ∈ m !!! k ∨
    (k = op ∧ Py.strip part ≠ EmptyString ∧ n = normalize_net (Some (Py.strip part))).
Proof.
  unfold load_part. destruct (Py.is_empty (Py.strip part)) eqn:He.
  - destruct (Py.strip part); [|done]. naive_solver.
  - rewrite (normalize_strip_nonempty _ He), add_net_elem.
    apply is_empty_false in He. naive_solver.
Qed.

Lemma fold_load_part_elem op parts m k n :
  n ∈ fold_left (load_part op) parts m !!! k
  ↔ n ∈ m !!! k ∨
    (k = op ∧ ∃ part, part ∈ parts ∧ Py.strip part ≠ EmptyString ∧
                      n = normalize_net (Some (Py.strip part))).
Proof.
  revert m. induction parts as [|part parts IH]; intros m; simpl.
  - split; [by left|]. intros [|(_ & part & []%not_elem_of_nil & _)]; done.
  - rewrite IH, load_part_elem. setoid_rewrite elem_of_cons. naive_solver.
Qed.

Lemma load_row_elem m row k n :
  n ∈ load_row m row !!! k ↔ n ∈ m !!! k ∨ contributes row k n.
Proof.
  destruct row as [op gn_cell]. unfold load_row, contributes. simpl.
  destruct gn_cell as [gn|]; simpl; [|naive_solver].
  destruct (Py.is_empty (Py.strip (str_cell op))) eqn:He.
  - destruct (Py.strip (str_cell op)); [|done]. naive_solver.
  - rewrite fold_load_part_elem. apply is_empty_false in He. naive_solver.
Qed.

Lemma fold_load_row_elem (l : list (cell * cell)) m k n :
  n ∈ fold_left load_row l m !!! k
  ↔ n ∈ m !!! k ∨ ∃ row, row ∈ l ∧ contributes row k n.
Proof.
  revert m. induction l as [|row l IH]; intros m; simpl.
  - split; [by left|]. intros [|(row & []%not_elem_of_nil & _)]; done.
  - rewrite IH, load_row_elem. setoid_rewrite elem_of_cons. naive_solver.
Qed.

Lemma add_net_clean m op net :
  clean_register m →
  op ≠ EmptyString → Py.strip op = op →
  net ≠ EmptyString → normalize_net (Some net) = net →
  clean_register (add_net m op net).
Proof.
  intros Hm Hop Hstrip Hnet Hnorm k nets. rewrite add_net_lookup.
  case_decide as Hk; [|apply Hm]. subst k. intros [= <-].
  split; [done|]. split; [done|]. split; [set_solver|].
  intros n [Hn| ->%elem_of_singleton]%elem_of_union; [|done].
  rewrite lookup_total_alt in Hn.
  destruct (m !! op) as [nets|] eqn:Hlook; simpl in Hn.
  - by apply (Hm op nets).
  - by apply not_elem_of_empty in Hn.
Qed.

Lemma load_excel_gn_map_clean rows : clean_register (load_excel_gn_map rows).
Proof.
  unfold load_excel_gn_map. apply fold_left_invariant; [|by intros ? ? ?].
  intros m [op gn_cell] Hm. unfold load_row.
  destruct (isna gn_cell); [done|].
  destruct (Py.is_empty (Py.strip (str_cell op))) eqn:Hop; [done|].
  apply fold_left_invariant; [|done].
  intros m' part Hm'. unfold load_part.
  destruct (Py.is_empty (Py.strip part)) eqn:Hpart; [done|].
  pose proof (normalize_strip_nonempty _ Hpart) as Hnorm. rewrite Hnorm.
  apply add_net_clean; [done|by apply is_empty_false|apply strip_idemp| |].
  - by apply is_empty_false.
  - apply sub_spaces_idemp.
Qed.

Lemma load_rows_gap_any last gap rest m :
  Forall (fun row => row.1 = None) gap →
  ∃ m', load_rows last (gap ++ rest) m = load_rows last rest m'.
Proof.
  intros Hgap. revert m. induction Hgap as [|[op gn_cell] gap Hop _ IH]; intros m.
  - by exists m.
  - simpl in Hop. subst op. cbn [app load_rows]. apply IH.
Qed.

End LoaderMore.

(** X18: every entry of a loaded register is clean: the carrier is a
    non-empty string without surrounding whitespace, it has at least one
    net, and each net is non-empty and free of whitespace. *)
Theorem load_excel_gn_map_entries_clean (rows : list (cell * cell))
    (op : string) (nets : gset string) :
  load_excel_gn_map rows !! op = Some nets →
  op ≠ EmptyString ∧ Py.strip op = op ∧ nets ≠ ∅ ∧
  ∀ n, n ∈ nets → n ≠ EmptyString ∧ normalize_net (Some n) = n.
Proof. apply load_excel_gn_map_clean. Qed.

Lemma load_excel_gn_map_entries_clean_witness :
  "CT" ≠ EmptyString ∧ Py.strip "CT" = "CT" ∧
  ({[ "1.1.1.0/24" ]} : gset string) ≠ ∅ ∧
  ∀ n, n ∈ ({[ "1.1.1.0/24" ]} : gset string) →
       n ≠ EmptyString ∧ normalize_net (Some n) = n.
Proof.
  apply (load_excel_gn_map_entries_clean [(Some " CT ", Some " 1.1.1. 0/24 ")] "CT").
  vm_compute. reflexivity.
Defined.

(** X19: what the register holds, exactly: a net is filed under a carrier
    if and only if some row of the forward-filled sheet contributes it,
    that is, the row's carrier cell strips to that non-empty carrier and
    the net is the normal form of a non-blank line of the row's net cell. *)
Theorem load_excel_gn_map_exact (rows : list (cell * cell)) (op n : string) :
  n ∈ load_excel_gn_map rows !!! op
  ↔ ∃ row, row ∈ zip (ffill (map fst rows)) (map snd rows) ∧ contributes row op n.
Proof.
  unfold load_excel_gn_map. rewrite fold_load_row_elem, lookup_total_empty.
  split; [intros [[]%not_elem_of_empty|]|]; by eauto.
Qed.

(** X20: rows that come before any carrier was named are not dropped: their
    nets are filed under the carrier "nan", the text of a missing value. *)
Theorem load_excel_gn_map_leading_rows (gap : list (cell * cell)) (gn : string)
    (post : list (cell * cell)) (part : string) :
  Forall (fun row => row.1 = None) gap →
  part ∈ splitlines gn → Py.strip part ≠ EmptyString →
  normalize_net (Some (Py.strip part))
    ∈ load_excel_gn_map (gap ++ (None, Some gn) :: post) !!! "nan".
Proof.
  intros Hgap Hin Hpart. rewrite load_excel_gn_map_fused.
  destruct (load_rows_gap_any None gap ((None, Some gn) :: post) ∅ Hgap) as (m' & ->).
  cbn [load_rows]. apply (load_rows_mono None post _ "nan").
  apply fold_load_part_adds; [done|]. by apply is_empty_false.
Qed.

Lemma load_excel_gn_map_leading_rows_witness :
  "1.1.1.0/24" ∈ load_excel_gn_map [(None, None); (None, Some "1.1.1.0/24"); (Some "CT", None)]
                   !!! "nan".
Proof.
  apply (load_excel_gn_map_leading_rows [(None, None)] "1.1.1.0/24" [(Some "CT", None)]
           "1.1.1.0/24").
  - repeat constructor.
  - vm_compute. left.
  - discriminate.
Defined.

(** ** More on normalization *)

(** X21: normalizing is idempotent, also from a missing value, and it
    distributes over concatenation. *)
Theorem normalize_net_idempotent :
  (∀ net, normalize_net (Some (normalize_net net)) = normalize_net net) ∧
  (∀ a b, normalize_net (Some (a ++ b))
          = (normalize_net (Some a) ++ normalize_net (Some b))%string).
Proof.
  split.
  - intros [s|]; [apply sub_spaces_idemp|reflexivity].
  - intros a b. apply sub_spaces_app.
Qed.

(** ** The inventory loader *)

Section SearchSound.
Context {A : Type}.

Lemma exactly_sound p n prev s pos (k : option ascii → string → nat → option A) res :
  Rx.exactly p n prev s pos k = Some res →
  ∃ w rest prev',
    s = (w ++ rest)%string ∧ String.length w = n ∧ all_chars p w = true ∧
    k prev' rest (pos + n)%nat = Some res.
Proof.
  revert prev s pos. induction n as [|n IH]; intros prev s pos; simpl.
  - intros Hk. exists "", s, prev. by rewrite Nat.add_0_r.
  - destruct s as [|c s]; [done|]. destruct (p c) eqn:Hc; [|done].
    intros (w & rest & prev' & -> & <- & Hw & Hk)%IH.
    exists (String c w), rest, prev'. split; [reflexivity|]. split; [done|].
    split; [simpl; by rewrite Hc, Hw|]. by rewrite Nat.add_succ_r.
Qed.

Lemma upto_sound p n prev s pos (k : option ascii → string → nat → option A) res :
  Rx.upto p n prev s pos k = Some res →
  ∃ w rest prev',
    s = (w ++ rest)%string ∧ (String.length w ≤ n)%nat ∧ all_chars p w = true ∧
    k prev' rest (pos + String.length w)%nat = Some res.
Proof.
  revert prev s pos. induction n as [|n IH]; intros prev s pos.
  - destruct s as [|c s]; simpl; intros Hk;
      [exists "", "", prev|exists "", (String c s), prev]; by rewrite Nat.add_0_r.
  - assert (k prev s pos = Some res →
            ∃ w rest prev',
              s = (w ++ rest)%string ∧ (String.length w ≤ S n)%nat ∧
              all_chars p w = true ∧
              k prev' rest (pos + String.length w)%nat = Some res) as Hstop.
    { intros Hk. exists "", s, prev. rewrite Nat.add_0_r. simpl.
      split; [done|]. split; [lia|done]. }
    destruct s as [|c s]; simpl; [done|].
    destruct (p c) eqn:Hc; [|done].
    destruct (Rx.upto p n (Some c) s (S pos) k) as [m|] eqn:Hu; [|done].
    intros [= ->]. apply IH in Hu as (w & rest & prev' & -> & Hlen & Hw & Hk).
    exists (String c w), rest, prev'. split; [reflexivity|].
    split; [simpl; lia|]. split; [simpl; by rewrite Hc, Hw|].
    simpl. by rewrite Nat.add_succ_r.
Qed.

Lemma lazy_sound p prev s pos (k : option ascii → string → nat → option A) res :
  Rx.lazy p prev s pos k = Some res →
  ∃ w rest prev',
    s = (w ++ rest)%string ∧ all_chars p w = true ∧
    k prev' rest (pos + String.length w)%nat = Some res.
Proof.
  revert prev pos. induction s as [|c s IH]; intros prev pos; simpl.
  - destruct (k prev "" pos) as [m|] eqn:Hk; [|done]. intros [= ->].
    exists "", "", prev. by rewrite Nat.add_0_r.
  - destruct (k prev (String c s) pos) as [m|] eqn:Hk.
    + intros [= ->]. exists "", (String c s), prev. by rewrite Nat.add_0_r.
    + destruct (p c) eqn:Hc; [|done].
      intros (w & rest & prev' & -> & Hw & Hk')%IH.
      exists (String c w), rest, prev'. split; [reflexivity|].
      split; [simpl; by rewrite Hc, Hw|]. simpl. by rewrite Nat.add_succ_r.
Qed.

Lemma drop_prefix_ci_Some t s prev' s' :
  Rx.drop_prefix_ci t s = Some (prev', s') →
  ∃ w, s = (w ++ s')%string ∧ ci_equal w t = true ∧ String.length w = String.length t.
Proof.
  revert s. induction t as [|b t IH]; intros s; [by destruct s|].
  destruct s as [|a s]; [by destruct t|]. simpl.
  destruct (Ascii.eqb (Rx.lower a) (Rx.lower b)) eqn:Hab; [|by destruct t].
  destruct t as [|b' t].
  - intros [= _ ->]. exists (String a ""). simpl. by rewrite Hab.
  - intros (w & -> & Hw & Hlen)%IH. exists (String a w).
    split; [reflexivity|]. simpl in *. by rewrite Hab, Hw, Hlen.
Qed.

Lemma rx_exec_sound r prev s pos g
    (k : option ascii → string → nat → Rx.groups → option A) res :
  Rx.exec r prev s pos g k = Some res →
  ∃ w rest prev' g',
    s = (w ++ rest)%string ∧ rx_shape r w g g' ∧
    k prev' rest (pos + String.length w)%nat g' = Some res.
Proof.
  revert prev s pos g k.
  induction r as [| |t|p lo hi|p|p|r1 IH1 r2 IH2|n r IH]; intros prev s pos g k;
    cbn [Rx.exec rx_shape].
  - intros Hk. exists "", s, prev, g. by rewrite Nat.add_0_r.
  - destruct (negb _); [|done]. intros Hk. exists "", s, prev, g. by rewrite Nat.add_0_r.
  - destruct t as [|b t].
    + intros Hk. exists "", s, prev, g. by rewrite Nat.add_0_r.
    + destruct (Rx.drop_prefix_ci _ s) as [[prev' s']|] eqn:Hd; [|done]. intros Hk.
      apply drop_prefix_ci_Some in Hd as (w & -> & Hw & Hlen).
      exists w, s', prev', g. by rewrite Hlen.
  - intros (w1 & rest1 & prev1 & -> & Hlen1 & Hw1 &
            (w2 & rest & prev' & -> & Hlen2 & Hw2 & Hk)%upto_sound)%exactly_sound.
    exists (w1 ++ w2)%string, rest, prev', g.
    split; [by rewrite append_assoc|]. rewrite length_append.
    split; [|by rewrite Hlen1, Nat.add_assoc].
    split; [lia|]. by rewrite all_chars_app, Hw1, Hw2.
  - intros (w1 & rest1 & prev1 & -> & Hlen1 & Hw1 &
            (w2 & rest & prev' & -> & Hlen2 & Hw2 & Hk)%upto_sound)%exactly_sound.
    exists (w1 ++ w2)%string, rest, prev', g.
    split; [by rewrite append_assoc|]. rewrite length_append.
    split; [|by rewrite Hlen1, Nat.add_assoc].
    split; [by destruct w1|]. by rewrite all_chars_app, Hw1, Hw2.
  - intros (w & rest & prev' & -> & Hw & Hk)%lazy_sound. by exists w, rest, prev', g.
  - intros (w1 & rest1 & prev1 & g1 & -> & H1 & Hk1)%IH1.
    apply IH2 in Hk1 as (w2 & rest & prev' & g' & -> & H2 & Hk).
    exists (w1 ++ w2)%string, rest, prev', g'.
    split; [by rewrite append_assoc|]. split; [by exists w1, w2, g1|].
    by rewrite length_append, Nat.add_assoc.
  - intros (w & rest & prev' & g1 & -> & Hr & Hk)%IH.
    replace (pos + String.length w - pos)%nat with (String.length w) in Hk by lia.
    rewrite substring_prefix in Hk. exists w, rest, prev', ((n, w) :: g1).
    split; [done|]. split; [by exists g1|done].
Qed.

End SearchSound.

Lemma search_from_sound r prev s pos m :
  Rx.search_from r prev s pos = Some m → ∃ w, rx_shape r w [] m.
Proof.
  revert prev pos. induction s as [|c s IH]; intros prev pos; simpl.
  - destruct (Rx.exec _ _ _ _ _ _) as [m'|] eqn:He; [|done]. intros [= ->].
    apply rx_exec_sound in He as (w & rest & prev' & g' & _ & Hw & [= <-]). by exists w.
  - destruct (Rx.exec _ _ _ _ _ _) as [m'|] eqn:He.
    + intros [= ->].
      apply rx_exec_sound in He as (w & rest & prev' & g' & _ & Hw & [= <-]). by exists w.
    + apply IH.
Qed.

Section InventoryLoader.
Implicit Types (m : gmap string (gset string)).

Lemma lower_dot a : Ascii.eqb (Rx.lower a) (Rx.lower ".") = true → a = "."%char.
Proof. destruct a as [[] [] [] [] [] [] [] []]; (done || discriminate). Qed.

Lemma lower_slash a : Ascii.eqb (Rx.lower a) (Rx.lower "/") = true → a = "/"%char.
Proof. destruct a as [[] [] [] [] [] [] [] []]; (done || discriminate). Qed.

Lemma ci_equal_single b w :
  (∀ a, Ascii.eqb (Rx.lower a) (Rx.lower b) = true → a = b) →
  ci_equal w (String b EmptyString) = true → w = String b EmptyString.
Proof.
  intros Hb. destruct w as [|a [|a' w]]; simpl; [done| |by rewrite andb_false_r].
  rewrite andb_true_r. by intros ->%Hb.
Qed.

Lemma all_chars_mono (p q : ascii → bool) s :
  (∀ c, q c = true → p c = true) → all_chars q s = true → all_chars p s = true.
Proof.
  intros Hqp. induction s as [|c s IH]; [done|]. simpl.
  intros [Hc Hs]%andb_prop. by rewrite (Hqp c Hc), (IH Hs).
Qed.

Lemma digit_nonspace c : Re.digit c = true → Re.nonspace c = true.
Proof. intros Hc%digit_not_space. unfold Re.nonspace, Re.space in *. by rewrite Hc. Qed.

Lemma strip_token s : all_chars Re.nonspace s = true → Py.strip s = s.
Proof.
  intros Hs. unfold Py.strip.
  assert (Py.rstrip_by Py.isspace s = s) as ->.
  { induction s as [|c s IH]; [done|]. simpl in *.
    apply andb_prop in Hs as [Hc Hs]. apply negb_true_iff in Hc.
    by rewrite Hc, (IH Hs). }
  destruct s as [|c s]; [done|]. simpl in *.
  apply andb_prop in Hs as [Hc _]. apply negb_true_iff in Hc. by rewrite Hc.
Qed.

Lemma cidr_text_token net : cidr_text net → token net.
Proof.
  intros (a & b & c & d & p & -> & [Ha Ha'] & [_ Hb] & [_ Hc] & [_ Hd] & [_ Hp]).
  split; [destruct a; [simpl in Ha; lia|done]|].
  rewrite !all_chars_app.
  rewrite (all_chars_mono _ _ a digit_nonspace Ha'), (all_chars_mono _ _ b digit_nonspace Hb),
    (all_chars_mono _ _ c digit_nonspace Hc), (all_chars_mono _ _ d digit_nonspace Hd),
    (all_chars_mono _ _ p digit_nonspace Hp).
  reflexivity.
Qed.

(** What the pattern captures: a net in CIDR notation and a carrier
    without whitespace. *)
Lemma txt_search_shape line net op :
  txt_search line = Some (net, op) → cidr_text net ∧ token op.
Proof.
  unfold txt_search, Rx.search.
  destruct (Rx.search_from _ _ _ _) as [m|] eqn:Hm; [|done].
  apply search_from_sound in Hm as (w & Hw).
  unfold TXT_PATTERN, Rx.cat in Hw. cbn [fold_right rx_shape] in Hw.
  destruct Hw as (? & ? & ? & -> & (-> & ->) & Hw).
  destruct Hw as (net' & ? & ? & -> & (? & Hnet & ->) & Hw).
  destruct Hw as (? & ? & ? & -> & (-> & ->) & Hw).
  destruct Hw as (? & ? & ? & -> & (_ & ->) & Hw).
  destruct Hw as (? & ? & ? & -> & (-> & ->) & Hw).
  destruct Hw as (? & ? & ? & -> & (_ & ->) & Hw).
  destruct Hw as (? & ? & ? & -> & (_ & _ & ->) & Hw).
  destruct Hw as (op' & ? & ? & -> & (? & (Hopn & Hop & ->) & ->) & (-> & ->)).
  destruct Hnet as
    (a & ? & ? & -> & (Ha & Ha' & ->) & (? & ? & ? & -> & (->%(ci_equal_single _ _ lower_dot) & ->) &
     (b & ? & ? & -> & (Hb & Hb' & ->) & (? & ? & ? & -> & (->%(ci_equal_single _ _ lower_dot) & ->) &
      (c & ? & ? & -> & (Hc & Hc' & ->) & (? & ? & ? & -> & (->%(ci_equal_single _ _ lower_dot) & ->) &
       (d & ? & ? & -> & (Hd & Hd' & ->) & (? & ? & ? & -> & (->%(ci_equal_single _ _ lower_slash) & ->) &
        (p & ? & ? & -> & (Hp & Hp' & ->) & (-> & ->)))))))))).
  cbn [Rx.group Nat.eqb]. intros [= <- <-]. split; [|by split].
  exists a, b, c, d, p. rewrite !append_nil_r. cbn [Nat.max] in *.
  unfold digits_upto. split; [done|]. repeat (split; [by split|]). by split.
Qed.

Lemma load_line_elem search m line k n :
  n ∈ load_line search m line !!! k
  ↔ n ∈ m !!! k ∨
    ∃ g1 g2, search line = Some (g1, g2) ∧ Py.strip g1 = n ∧ Py.strip g2 = k ∧
             n ≠ EmptyString ∧ k ≠ EmptyString.
Proof.
  unfold load_line. destruct (search line) as [[g1 g2]|]; [|naive_solver].
  destruct (Py.strip g2) as [|c2 op] eqn:H2; simpl; [naive_solver|].
  destruct (Py.strip g1) as [|c1 net] eqn:H1; simpl; [naive_solver|].
  rewrite add_net_elem. split.
  - intros [?|[-> ->]]; [by left|]. right. by exists g1, g2.
  - intros [?|(? & ? & [= <- <-] & <- & <- & _)]; [by left|]. right. by rewrite H1, H2.
Qed.

Lemma load_txt_gn_map_elem search lines k n :
  n ∈ load_txt_gn_map search lines !!! k
  ↔ ∃ line g1 g2, line ∈ lines ∧ search line = Some (g1, g2) ∧
                  Py.strip g1 = n ∧ Py.strip g2 = k ∧
                  n ≠ EmptyString ∧ k ≠ EmptyString.
Proof.
  unfold load_txt_gn_map.
  enough (∀ m, n ∈ fold_left (load_line search) lines m !!! k
               ↔ n ∈ m !!! k ∨
                 ∃ line g1 g2, line ∈ lines ∧ search line = Some (g1, g2) ∧
                               Py.strip g1 = n ∧ Py.strip g2 = k ∧
                               n ≠ EmptyString ∧ k ≠ EmptyString) as H.
  { rewrite H, lookup_total_empty. split; [intros [[]%not_elem_of_empty|]|]; by eauto. }
  induction lines as [|line lines IH]; intros m; simpl.
  - split; [by left|]. intros [|(line & ? & ? & []%not_elem_of_nil & _)]; done.
  - rewrite IH, load_line_elem. setoid_rewrite elem_of_cons. naive_solver.
Qed.

(** Maps without empty entries are equal when they hold the same nets
    under every carrier. *)
Lemma no_empty_carrier_eq m1 m2 :
  no_empty_carrier m1 → no_empty_carrier m2 →
  (∀ k n, n ∈ m1 !!! k ↔ n ∈ m2 !!! k) → m1 = m2.
Proof.
  intros H1 H2 Heq. apply map_eq. intros k.
  assert (m1 !!! k = m2 !!! k) as Hk by (apply set_eq; intros n; apply Heq).
  rewrite !lookup_total_alt in Hk.
  destruct (m1 !! k) as [s1|] eqn:E1, (m2 !! k) as [s2|] eqn:E2; simpl in Hk.
  - by rewrite Hk.
  - by destruct (H1 k s1 E1).
  - by destruct (H2 k s2 E2).
  - done.
Qed.

Lemma load_txt_gn_map_exact_aux lines op net :
  net ∈ load_txt_gn_map txt_search lines !!! op
  ↔ ∃ line, line ∈ lines ∧ txt_search line = Some (net, op).
Proof.
  rewrite load_txt_gn_map_elem. split.
  - intros (line & g1 & g2 & Hin & Hs & <- & <- & _). exists line. split; [done|].
    destruct (txt_search_shape _ _ _ Hs) as [[_ Hnet]%cidr_text_token [_ Hop]].
    by rewrite !strip_token.
  - intros (line & Hin & Hs). exists line, net, op.
    destruct (txt_search_shape _ _ _ Hs) as [[Hnetn Hnet]%cidr_text_token [Hopn Hop]].
    by rewrite !strip_token.
Qed.

End InventoryLoader.

(** X22: the inventory holds exactly what the pattern finds: a net is
    filed under a carrier if and only if the search on some line captures
    that net and that carrier.  The two [strip] calls and the guard that
    follows them never change anything. *)
Theorem load_txt_gn_map_exact (lines : list string) (op net : string) :
  net ∈ load_txt_gn_map txt_search lines !!! op
  ↔ ∃ line, line ∈ lines ∧ txt_search line = Some (net, op).
Proof. apply load_txt_gn_map_exact_aux. Qed.

(** X23: every entry of a loaded inventory is well formed: the carrier is
    a non-empty text without whitespace and has at least one net, and
    each net reads [a.b.c.d/p] with one to three digits per octet and one
    or two for the prefix length. *)
Theorem load_txt_gn_map_entries (lines : list string) (op : string) (nets : gset string) :
  load_txt_gn_map txt_search lines !! op = Some nets →
  token op ∧ nets ≠ ∅ ∧ ∀ net, net ∈ nets → cidr_text net.
Proof.
  intros Hop.
  pose proof (load_txt_gn_map_no_empty txt_search lines op nets Hop) as Hne.
  assert (∀ net, net ∈ nets → ∃ line, line ∈ lines ∧ txt_search line = Some (net, op)) as Hall.
  { intros net Hnet. apply load_txt_gn_map_exact_aux. by rewrite lookup_total_alt, Hop. }
  split; [|split; [done|]].
  - apply set_choose_L in Hne as [net Hnet].
    destruct (Hall net Hnet) as (line & _ & Hs). by apply txt_search_shape in Hs as [_ ?].
  - intros net (line & _ & Hs)%Hall. by apply txt_search_shape in Hs as [? _].
Qed.

(** X24: the inventory depends on which lines the text has, not on their
    order or on how often a line occurs. *)
Theorem load_txt_gn_map_same_lines (lines1 lines2 : list string) :
  (∀ line, line ∈ lines1 ↔ line ∈ lines2) →
  load_txt_gn_map txt_search lines1 = load_txt_gn_map txt_search lines2.
Proof.
  intros Hsame. apply no_empty_carrier_eq; try apply load_txt_gn_map_no_empty.
  intros k n. rewrite !load_txt_gn_map_elem. by setoid_rewrite Hsame.
Qed.

(** X25: run on the same sheet and the same text, the two tools report the
    same: the one-bucket diff of [2.文本表格比较.py] is the union of the two
    buckets of [gn_check_all.py]. *)
Theorem tools_agree_on_loaded (rows : list (cell * cell)) (lines : list string) :
  TableCompare.main (load_excel_gn_map rows) (load_txt_gn_map txt_search lines)
  = merged (compare_and_output (load_excel_gn_map rows) (load_txt_gn_map txt_search lines)).
Proof.
  apply main_merged; [apply load_txt_gn_map_no_empty|apply load_excel_gn_map_normalized].
Qed.

Lemma load_txt_gn_map_entries_witness :
  token "ABC" ∧ ({[ "1.2.3.4/29" ]} : gset string) ≠ ∅ ∧
  ∀ net, net ∈ ({[ "1.2.3.4/29" ]} : gset string) → cidr_text net.
Proof.
  apply (load_txt_gn_map_entries ["  address 10 1.2.3.4/29 description ABC"] "ABC").
  vm_compute. reflexivity.
Defined.

Lemma load_txt_gn_map_same_lines_witness :
  load_txt_gn_map txt_search
    ["address 1 5.6.7.0/28 description CT"; "address 0 1.2.3.0/24 description CT";
     "address 1 5.6.7.0/28 description CT"]
  = load_txt_gn_map txt_search
      ["address 0 1.2.3.0/24 description CT"; "address 1 5.6.7.0/28 description CT"].
Proof.
  apply (load_txt_gn_map_same_lines
           ["address 1 5.6.7.0/28 description CT"; "address 0 1.2.3.0/24 description CT";
            "address 1 5.6.7.0/28 description CT"]
           ["address 0 1.2.3.0/24 description CT"; "address 1 5.6.7.0/28 description CT"]).
  intros line. rewrite !elem_of_cons, elem_of_nil. tauto.
Defined.

(** ** From the sheet and the text to the report *)

Section EndToEnd.
Implicit Types (m : gmap string (gset string)).

Lemma sub_spaces_token s : all_chars Re.nonspace s = true → sub_spaces s = s.
Proof.
  induction s as [|c s IH]; [done|]. simpl. intros [Hc Hs]%andb_prop.
  apply negb_true_iff in Hc. by rewrite Hc, (IH Hs).
Qed.

Lemma elem_of_lookup_total m k n :
  n ∈ m !!! k ↔ ∃ s, m !! k = Some s ∧ n ∈ s.
Proof.
  rewrite lookup_total_alt. destruct (m !! k) as [s|]; simpl.
  - split; [by exists s|]. by intros (? & [= <-] & ?).
  - split; [by intros ?%not_elem_of_empty|]. by intros (? & [=] & _).
Qed.

Lemma set_map_normalize_idemp (s : gset string) :
  (set_map (fun n => normalize_net (Some n))
     (set_map (fun n => normalize_net (Some n)) s : gset string) : gset string)
  = set_map (fun n => normalize_net (Some n)) s.
Proof.
  apply set_eq. intros x. rewrite !elem_of_map. split.
  - intros (y & -> & (z & -> & Hz)%elem_of_map). exists z.
    split; [apply sub_spaces_idemp|done].
  - intros (z & -> & Hz). exists (normalize_net (Some z)).
    split; [symmetry; apply sub_spaces_idemp|]. apply elem_of_map. by exists z.
Qed.

End EndToEnd.

(** X26: run on a loaded sheet and a loaded text, the report is the plain
    difference of the two: a net is listed under a carrier if and only if
    the inventory has it for that carrier and the register does not. *)
Theorem report_of_loaded (rows : list (cell * cell)) (lines : list string)
    (op net : string) :
  reported (compare_and_output (load_excel_gn_map rows) (load_txt_gn_map txt_search lines))
    op net
  ↔ net ∈ load_txt_gn_map txt_search lines !!! op ∧ net ∉ load_excel_gn_map rows !!! op.
Proof.
  rewrite reported_iff, <- elem_of_lookup_total. split.
  - intros [Hnet Hnot]. split; [done|]. intros (s & Hs & Hin)%elem_of_lookup_total.
    apply Hnot. by exists s, net.
  - intros [Hnet Hnot]. split; [done|]. intros (s & n & Hs & Hn & Heq). apply Hnot.
    apply elem_of_lookup_total. exists s. split; [done|].
    apply load_txt_gn_map_exact_aux in Hnet as (line & _ & Hline).
    apply txt_search_shape in Hline as [[_ Hnet]%cidr_text_token _].
    rewrite (load_excel_gn_map_normalized rows op s n Hs Hn) in Heq.
    unfold normalize_net in Heq. rewrite (sub_spaces_token _ Hnet) in Heq. by subst n.
Qed.

(** X27: the two-bucket diff looks at the register through normal forms
    only: normalizing every register net beforehand changes nothing. *)
Theorem compare_and_output_normalizes (excel_map txt_map : gmap string (gset string)) :
  compare_and_output
    ((fun s : gset string => set_map (fun n => normalize_net (Some n)) s) <$> excel_map)
    txt_map
  = compare_and_output excel_map txt_map.
Proof.
  rewrite (report_eta (compare_and_output _ txt_map)).
  rewrite (report_eta (compare_and_output excel_map txt_map)).
  f_equal; apply map_eq; intros op; report_lookup; rewrite lookup_fmap;
    destruct (txt_map !! op) as [nets|]; try done;
    destruct (excel_map !! op) as [excel_nets|]; try done.
  cbn [fmap option_fmap option_map mbind option_bind].
  by rewrite set_map_normalize_idemp.
Qed.
